(** * MDP solvers: a shallow embedding of [mdp_network/solvers.py]

    The four solvers of the module ([policy_evaluation],
    [optimal_value_iteration], [q_learning], [compute_occupancy_measure])
    are written as Rocq functions over

    - an abstract arithmetic ([Num]), instantiated with IEEE binary64
      numbers (what Python's [float] is) and with exact rationals;
    - the model and table interfaces the module imports ([MDPNetwork],
      [PolicyTable], [ValueTable], [QTable]), whose classes live outside
      [solvers.py];
    - explicit state passing for the tables the solvers mutate, an error
      result for the statements that can raise, and a list of diagnostics
      for the [print] calls. *)

From Stdlib Require Import PrimFloat Uint63 QArith Qcanon Qcabs.
From stdpp Require Import gmap strings list.

#[local] Set Warnings "-inexact-float".

(** ** Arithmetic *)

(** The operations [solvers.py] applies to its scalars.  [n_ltb] and [n_leb]
    are Python's [<] and [<=]; [n_of_nat] is the implicit conversion of an
    [int] count in [1.0 / len(start_states)]. *)
Class Num (num : Type) := {
  n_zero : num;
  n_one : num;
  n_add : num -> num -> num;
  n_sub : num -> num -> num;
  n_mul : num -> num -> num;
  n_div : num -> num -> num;
  n_abs : num -> num;
  n_ltb : num -> num -> bool;
  n_leb : num -> num -> bool;
  n_of_nat : nat -> num
}.

(** Python floats: IEEE 754 binary64. *)
#[export] Instance float_Num : Num float := {|
  n_zero := 0%float;
  n_one := 1%float;
  n_add := PrimFloat.add;
  n_sub := PrimFloat.sub;
  n_mul := PrimFloat.mul;
  n_div := PrimFloat.div;
  n_abs := PrimFloat.abs;
  n_ltb := PrimFloat.ltb;
  n_leb := PrimFloat.leb;
  n_of_nat := fun n => PrimFloat.of_uint63 (Uint63.of_Z (Z.of_nat n))
|}.

Definition Qc_ltb (x y : Qc) : bool :=
  match (x ?= y)%Qc with Lt => true | _ => false end.

Definition Qc_leb (x y : Qc) : bool :=
  match (x ?= y)%Qc with Gt => false | _ => true end.

(** Exact rational arithmetic: the solvers as the mathematics reads them. *)
#[export] Instance Qc_Num : Num Qc := {|
  n_zero := 0%Qc;
  n_one := 1%Qc;
  n_add := Qcplus;
  n_sub := Qcminus;
  n_mul := Qcmult;
  n_div := Qcdiv;
  n_abs := Qcabs;
  n_ltb := Qc_ltb;
  n_leb := Qc_leb;
  n_of_nat := fun n => Q2Qc (inject_Z (Z.of_nat n))
|}.

(** ** Results, exceptions and diagnostics *)

Inductive exn : Set :=
  | ZeroDivisionError
  | KeyError.

Inductive Result (A : Type) : Type :=
  | Ok (a : A)
  | Raise (e : exn).
Arguments Ok {A} a.
Arguments Raise {A} e.

#[export] Instance Result_bind : MBind Result := fun A B k r =>
  match r with
  | Ok a => k a
  | Raise e => Raise e
  end.

(** A loop body that may raise, run over a list from left to right. *)
Fixpoint foldM {A B} (f : A -> B -> Result A) (l : list B) (a : A) : Result A :=
  match l with
  | [] => Ok a
  | b :: l' => a' ← f a b; foldM f l' a'
  end.

(** The lines the solvers [print]. *)
Inductive Diag : Set :=
  | PEConverged (iterations : nat)
  | PEMaxIterations (max_iterations : nat)
  | OVIConverged (iterations : nat)
  | OVIMaxIterations (max_iterations : nat)
  | QLProgress (done total : nat)
  | OccNoStartStates
  | OccConverged (iterations : nat)
  | OccMaxIterations (max_iterations : nat).

(** ** Insertion-ordered dictionaries

    The occupancy solver iterates over dictionaries it builds itself, so
    their item order is observable: a Python [dict] as its item list, keys
    unique, in insertion order. *)

Section PyDict.

Context {K V : Type} `{EqDecision K}.

Fixpoint dict_get (d : list (K * V)) (k : K) : option V :=
  match d with
  | [] => None
  | (k', v) :: d' => if decide (k = k') then Some v else dict_get d' k
  end.

(** [d[k] = v]: an existing key keeps its position, a new key goes last. *)
Fixpoint dict_set (d : list (K * V)) (k : K) (v : V) : list (K * V) :=
  match d with
  | [] => [(k, v)]
  | (k', v') :: d' =>
      if decide (k = k') then (k', v) :: d' else (k', v') :: dict_set d' k v
  end.

End PyDict.

(** ** The model and table interfaces *)

(** [ValueTable] and [QTable] are dictionaries the solvers reach through
    [get] and [set] only.  [value_unset] and [q_unset] stand for what the
    containers answer for a key that was never set; the solvers give every
    state of the model an entry before their loops start. *)
Class TableDefaults (num : Type) := {
  value_unset : num;
  q_unset : num
}.

Section Solvers.

Context {state : Type} `{Countable state}.
Context {num : Type} `{Num num} `{TableDefaults num}.

(** What the solvers read of an [MDPNetwork].  [states] and [start_states]
    are iterated, so they are lists; a transition distribution is the item
    list of the dictionary [get_transition_probabilities] returns, in
    iteration order.  Actions are the indices of [range(num_actions)]. *)
Record MDPNetwork := {
  states : list state;
  num_actions : nat;
  start_states : list state;
  is_terminal_state : state -> bool;
  get_transition_probabilities : state -> nat -> list (state * num);
  get_state_reward : state -> num
}.

(** [PolicyTable.get_action_probabilities], as the item list of the
    dictionary it returns. *)
Record PolicyTable := {
  get_action_probabilities : state -> list (nat * num)
}.

Abbreviation ValueTable := (gmap state num).
Abbreviation QTable := (gmap (state * nat) num).

Definition get_value (t : ValueTable) (s : state) : num :=
  default value_unset (t !! s).

Definition set_value (t : ValueTable) (s : state) (v : num) : ValueTable :=
  <[s := v]> t.

Definition get_q_value (q : QTable) (s : state) (a : nat) : num :=
  default q_unset (q !! (s, a)).

Definition set_q_value (q : QTable) (s : state) (a : nat) (v : num) : QTable :=
  <[(s, a) := v]> q.

(** Python's [max(a, b)]: the second argument wins only when it is strictly
    greater. *)
Definition py_max (a b : num) : num := if n_ltb a b then b else a.

(** [max(action_values) if action_values else 0.0] *)
Definition py_max_list (l : list num) : num :=
  match l with
  | [] => n_zero
  | x :: l' => fold_left py_max l' x
  end.

(** [if not transition_probs: transition_probs = {state: 1.0}] *)
Definition resolve_transitions (M : MDPNetwork) (s : state) (a : nat)
  : list (state * num) :=
  match get_transition_probabilities M s a with
  | [] => [(s, n_one)]
  | tp => tp
  end.

(** The inner sum of both Bellman backups:
    [acc += prob * (reward + gamma * next_value)] over the next states. *)
Definition backup_sum (M : MDPNetwork) (gamma : num) (V : ValueTable)
    (s : state) (a : nat) : num :=
  fold_left
    (fun acc '(next_state, prob) =>
       n_add acc (n_mul prob (n_add (get_state_reward M next_state)
                                    (n_mul gamma (get_value V next_state)))))
    (resolve_transitions M s a) n_zero.

(** [for action in range(num_actions): q_table.set_q_value(state, action, 0.0)] *)
Definition zero_q_row (M : MDPNetwork) (Q : QTable) (s : state) : QTable :=
  fold_left (fun Q a => set_q_value Q s a n_zero) (seq 0 (num_actions M)) Q.

Definition init_values (M : MDPNetwork) : ValueTable :=
  fold_left (fun V s => set_value V s n_zero) (states M) ∅.

Definition init_tables (M : MDPNetwork) : ValueTable * QTable :=
  fold_left (fun '(V, Q) s => (set_value V s n_zero, zero_q_row M Q s))
            (states M) (∅, ∅).

(** ** policy_evaluation *)

(** The new value of a non-terminal state: the policy-weighted sum over the
    actions of positive probability. *)
Definition pe_new_value (M : MDPNetwork) (policy : PolicyTable) (gamma : num)
    (V : ValueTable) (s : state) : num :=
  fold_left
    (fun new_value '(action, action_prob) =>
       if n_leb action_prob n_zero then new_value
       else n_add new_value (n_mul action_prob (backup_sum M gamma V s action)))
    (get_action_probabilities policy s) n_zero.

(** The body of [for state in states], on the table and the running
    [max_delta]. *)
Definition pe_step (M : MDPNetwork) (policy : PolicyTable) (gamma : num)
    (acc : ValueTable * num) (s : state) : ValueTable * num :=
  let '(V, max_delta) := acc in
  if is_terminal_state M s then (set_value V s n_zero, max_delta)
  else
    let old_value := get_value V s in
    let new_value := pe_new_value M policy gamma V s in
    (set_value V s new_value, py_max max_delta (n_abs (n_sub new_value old_value))).

Definition pe_sweep (M : MDPNetwork) (policy : PolicyTable) (gamma : num)
    (V : ValueTable) : ValueTable * num :=
  fold_left (pe_step M policy gamma) (states M) (V, n_zero).

(** [for iteration in range(max_iterations): ... break ... else: ...] with
    [remaining] iterations to go. *)
Fixpoint pe_loop (M : MDPNetwork) (policy : PolicyTable) (gamma theta : num)
    (max_iterations remaining iteration : nat) (V : ValueTable)
  : ValueTable * list Diag :=
  match remaining with
  | O => (V, [PEMaxIterations max_iterations])
  | S remaining' =>
      let '(V', max_delta) := pe_sweep M policy gamma V in
      if n_ltb max_delta theta then (V', [PEConverged (iteration + 1)])
      else pe_loop M policy gamma theta max_iterations remaining' (S iteration) V'
  end.

Definition policy_evaluation (M : MDPNetwork) (policy : PolicyTable)
    (gamma theta : num) (max_iterations : nat) : ValueTable * list Diag :=
  pe_loop M policy gamma theta max_iterations max_iterations 0 (init_values M).

(** ** optimal_value_iteration *)

(** [for action in range(num_actions)]: store each Q-value and append it to
    [action_values]. *)
Definition ovi_actions (M : MDPNetwork) (gamma : num) (V : ValueTable)
    (s : state) (Q : QTable) : QTable * list num :=
  fold_left
    (fun '(Q, action_values) action =>
       let q_value := backup_sum M gamma V s action in
       (set_q_value Q s action q_value, action_values ++ [q_value]))
    (seq 0 (num_actions M)) (Q, []).

Definition ovi_step (M : MDPNetwork) (gamma : num)
    (acc : ValueTable * QTable * num) (s : state) : ValueTable * QTable * num :=
  let '(V, Q, max_delta) := acc in
  if is_terminal_state M s then (set_value V s n_zero, zero_q_row M Q s, max_delta)
  else
    let old_value := get_value V s in
    let '(Q', action_values) := ovi_actions M gamma V s Q in
    let new_value := py_max_list action_values in
    (set_value V s new_value, Q',
     py_max max_delta (n_abs (n_sub new_value old_value))).

Definition ovi_sweep (M : MDPNetwork) (gamma : num) (V : ValueTable) (Q : QTable)
  : ValueTable * QTable * num :=
  fold_left (ovi_step M gamma) (states M) (V, Q, n_zero).

Fixpoint ovi_loop (M : MDPNetwork) (gamma theta : num)
    (max_iterations remaining iteration : nat) (V : ValueTable) (Q : QTable)
  : ValueTable * QTable * list Diag :=
  match remaining with
  | O => (V, Q, [OVIMaxIterations max_iterations])
  | S remaining' =>
      let '(V', Q', max_delta) := ovi_sweep M gamma V Q in
      if n_ltb max_delta theta then (V', Q', [OVIConverged (iteration + 1)])
      else ovi_loop M gamma theta max_iterations remaining' (S iteration) V' Q'
  end.

Definition optimal_value_iteration (M : MDPNetwork) (gamma theta : num)
    (max_iterations : nat) : ValueTable * QTable * list Diag :=
  let '(V, Q) := init_tables M in
  ovi_loop M gamma theta max_iterations max_iterations 0 V Q.

(** ** q_learning *)

Section QLearning.

(** The state of a [numpy.random.Generator].  [seeded_rng] is
    [np.random.default_rng(seed)] for an integer seed; with [seed=None] numpy
    draws fresh entropy from the operating system, which a run receives as
    [os_entropy]. *)
Context {rng : Type}.
Variable seeded_rng : Z -> rng.

Definition default_rng (seed : option Z) (os_entropy : rng) : rng :=
  match seed with
  | Some z => seeded_rng z
  | None => os_entropy
  end.

(** [rng.random()] and [rng.integers(low, high)]: a draw and the advanced
    generator.  numpy refuses a negative seed and an empty range
    ([ValueError]); the generator is taken on the calls it accepts. *)
Variable rng_random : rng -> num * rng.
Variable rng_integers : nat -> nat -> rng -> nat * rng.

(** The sampling half of the [MDPNetwork] interface. *)
Record Sampling := {
  sample_start_state : rng -> state * rng;
  sample_next_state : state -> nat -> rng -> state * rng
}.

(** [QTable.get_best_action(state)], which returns the pair
    [(action, q_value)]. *)
Variable get_best_action : QTable -> state -> nat * num.

(** [for step in range(max_steps_per_episode)], with [steps] iterations to
    go. *)
Fixpoint ql_steps (M : MDPNetwork) (smp : Sampling) (alpha gamma epsilon : num)
    (steps : nat) (current_state : state) (g : rng) (Q : QTable) : rng * QTable :=
  match steps with
  | O => (g, Q)
  | S steps' =>
      if is_terminal_state M current_state then (g, Q)
      else
        let '(u, g) := rng_random g in
        let '(action, g) :=
          if n_ltb u epsilon then rng_integers 0 (num_actions M) g
          else ((get_best_action Q current_state).1, g) in
        let '(next_state, g) := sample_next_state smp current_state action g in
        let reward := get_state_reward M next_state in
        let current_q := get_q_value Q current_state action in
        let target_q :=
          if is_terminal_state M next_state then reward
          else n_add reward (n_mul gamma (get_best_action Q next_state).2) in
        let new_q := n_add current_q (n_mul alpha (n_sub target_q current_q)) in
        ql_steps M smp alpha gamma epsilon steps' next_state g
                 (set_q_value Q current_state action new_q)
  end.

(** [if (episode + 1) % (num_episodes // 10) == 0: print(...)]; Python's [%]
    raises on a zero divisor. *)
Definition ql_progress (num_episodes episode : nat) : Result (list Diag) :=
  if num_episodes / 10 =? 0 then Raise ZeroDivisionError
  else if (episode + 1) mod (num_episodes / 10) =? 0
       then Ok [QLProgress (episode + 1) num_episodes]
       else Ok [].

(** [for episode in range(num_episodes)], with [remaining] episodes to go. *)
Fixpoint ql_episodes (M : MDPNetwork) (smp : Sampling) (alpha gamma epsilon : num)
    (num_episodes max_steps_per_episode remaining episode : nat)
    (g : rng) (Q : QTable) (out : list Diag) : Result (QTable * list Diag) :=
  match remaining with
  | O => Ok (Q, out)
  | S remaining' =>
      let '(current_state, g) := sample_start_state smp g in
      let '(g, Q) :=
        ql_steps M smp alpha gamma epsilon max_steps_per_episode current_state g Q in
      printed ← ql_progress num_episodes episode;
      ql_episodes M smp alpha gamma epsilon num_episodes max_steps_per_episode
                  remaining' (S episode) g Q (out ++ printed)
  end.

(** The final loop: the value of a state is its best Q-value, 0 when
    terminal. *)
Definition ql_extract (M : MDPNetwork) (Q : QTable) (V : ValueTable) : ValueTable :=
  fold_left
    (fun V s =>
       if is_terminal_state M s then set_value V s n_zero
       else set_value V s (get_best_action Q s).2)
    (states M) V.

Definition q_learning (M : MDPNetwork) (smp : Sampling)
    (alpha gamma epsilon : num) (num_episodes max_steps_per_episode : nat)
    (seed : option Z) (os_entropy : rng)
  : Result (QTable * ValueTable * list Diag) :=
  let g := default_rng seed os_entropy in
  let '(V, Q) := init_tables M in
  '(Q, out) ← ql_episodes M smp alpha gamma epsilon num_episodes
                          max_steps_per_episode num_episodes 0 g Q [];
  Ok (Q, ql_extract M Q V, out).

End QLearning.

(** Modelled from the spec: [QTable.get_best_action] belongs to the table
    class, outside [solvers.py].  It returns the best action of [s] and its
    Q-value, the first action index that achieves the maximum, by ascending
    index; [n] is the number of actions the row holds. *)
Definition first_best_action (n : nat) (Q : QTable) (s : state) : nat * num :=
  fold_left
    (fun best a =>
       if n_ltb best.2 (get_q_value Q s a) then (a, get_q_value Q s a) else best)
    (seq 1 (n - 1)) (0, get_q_value Q s 0).

(** ** compute_occupancy_measure *)

(** [next_distribution = {state: 0.0 for state in states}] *)
Definition zero_distribution (M : MDPNetwork) : list (state * num) :=
  fold_left (fun d s => dict_set d s n_zero) (states M) [].

(** [for state in start_states: current_distribution[state] = initial_prob] *)
Definition initial_distribution (M : MDPNetwork) : list (state * num) :=
  let initial_prob := n_div n_one (n_of_nat (length (start_states M))) in
  fold_left (fun d s => dict_set d s initial_prob) (start_states M) [].

(** [for next_state, transition_prob in transition_probs.items()]:
    [next_distribution[next_state] += propagated_prob] reads the entry first,
    and a key that is not in the dictionary raises. *)
Definition occ_propagate (M : MDPNetwork) (gamma state_prob action_prob : num)
    (transition_probs : list (state * num)) (next : list (state * num))
  : Result (list (state * num)) :=
  foldM
    (fun next '(next_state, transition_prob) =>
       if is_terminal_state M next_state then Ok next
       else
         let propagated_prob :=
           n_mul (n_mul (n_mul state_prob action_prob) transition_prob) gamma in
         match dict_get next next_state with
         | Some p => Ok (dict_set next next_state (n_add p propagated_prob))
         | None => Raise KeyError
         end)
    transition_probs next.

(** The body of [for state, state_prob in current_distribution.items()]. *)
Definition occ_step (M : MDPNetwork) (policy : PolicyTable) (gamma : num)
    (acc : ValueTable * num * list (state * num)) (item : state * num)
  : Result (ValueTable * num * list (state * num)) :=
  let '(occ, max_change, next) := acc in
  let '(s, state_prob) := item in
  if n_leb state_prob n_zero || is_terminal_state M s then Ok acc
  else
    let old_occupancy := get_value occ s in
    let new_occupancy := n_add old_occupancy state_prob in
    let occ := set_value occ s new_occupancy in
    let max_change := py_max max_change (n_abs (n_sub new_occupancy old_occupancy)) in
    next ← foldM
      (fun next '(action, action_prob) =>
         if n_leb action_prob n_zero then Ok next
         else occ_propagate M gamma state_prob action_prob
                            (resolve_transitions M s action) next)
      (get_action_probabilities policy s) next;
    Ok (occ, max_change, next).

Definition occ_iteration (M : MDPNetwork) (policy : PolicyTable) (gamma : num)
    (current : list (state * num)) (occ : ValueTable)
  : Result (ValueTable * num * list (state * num)) :=
  foldM (occ_step M policy gamma) current (occ, n_zero, zero_distribution M).

Fixpoint occ_loop (M : MDPNetwork) (policy : PolicyTable) (gamma theta : num)
    (max_iterations remaining iteration : nat)
    (current : list (state * num)) (occ : ValueTable)
  : Result (ValueTable * list Diag) :=
  match remaining with
  | O => Ok (occ, [OccMaxIterations max_iterations])
  | S remaining' =>
      '(occ', max_change, next) ← occ_iteration M policy gamma current occ;
      if n_ltb max_change theta then Ok (occ', [OccConverged (iteration + 1)])
      else occ_loop M policy gamma theta max_iterations remaining' (S iteration)
                    next occ'
  end.

(** [for state in states: if is_terminal_state(state): set_value(state, 0.0)] *)
Definition occ_cleanup (M : MDPNetwork) (occ : ValueTable) : ValueTable :=
  fold_left
    (fun occ s => if is_terminal_state M s then set_value occ s n_zero else occ)
    (states M) occ.

Definition compute_occupancy_measure (M : MDPNetwork) (policy : PolicyTable)
    (gamma theta : num) (max_iterations : nat) : Result (ValueTable * list Diag) :=
  let occ := init_values M in
  match start_states M with
  | [] => Ok (occ, [OccNoStartStates])
  | _ :: _ =>
      '(occ, out) ← occ_loop M policy gamma theta max_iterations max_iterations 0
                             (initial_distribution M) occ;
      Ok (occ_cleanup M occ, out)
  end.

(** ** Definitions the statements below compare the solvers with *)

(** The model [M] with the distribution of the pair [(s0, a0)] replaced by
    the explicit self-loop [{s0: 1.0}]. *)
Definition with_self_loop (M : MDPNetwork) (s0 : state) (a0 : nat) : MDPNetwork := {|
  states := states M;
  num_actions := num_actions M;
  start_states := start_states M;
  is_terminal_state := is_terminal_state M;
  get_transition_probabilities := fun s a =>
    if decide (s = s0 ∧ a = a0) then [(s0, n_one)]
    else get_transition_probabilities M s a;
  get_state_reward := get_state_reward M
|}.

(** The reward one step of action [a] from [s] brings: the rewards of the
    next states, weighted by their probabilities. *)
Definition one_step_reward (M : MDPNetwork) (s : state) (a : nat) : num :=
  fold_left
    (fun acc '(next_state, prob) =>
       n_add acc (n_mul prob (get_state_reward M next_state)))
    (resolve_transitions M s a) n_zero.

(** A synchronous (Jacobi) sweep, as the specification words it: every new
    value is computed from the table [V_old] of the start of the sweep. *)
Definition pe_jacobi_step (M : MDPNetwork) (policy : PolicyTable) (gamma : num)
    (V_old : ValueTable) (acc : ValueTable * num) (s : state) : ValueTable * num :=
  let '(V, max_delta) := acc in
  if is_terminal_state M s then (set_value V s n_zero, max_delta)
  else
    let old_value := get_value V_old s in
    let new_value := pe_new_value M policy gamma V_old s in
    (set_value V s new_value, py_max max_delta (n_abs (n_sub new_value old_value))).

Definition pe_jacobi_sweep (M : MDPNetwork) (policy : PolicyTable) (gamma : num)
    (V : ValueTable) : ValueTable * num :=
  fold_left (pe_jacobi_step M policy gamma V) (states M) (V, n_zero).

(** A model is closed when its start states and every next state of a
    resolved distribution are among its [states]. *)
Definition closed_model (M : MDPNetwork) : Prop :=
  (∀ s, s ∈ start_states M → s ∈ states M) ∧
  (∀ s a next_state prob,
      s ∈ states M →
      (next_state, prob) ∈ resolve_transitions M s a → next_state ∈ states M).

(** The policy without the actions the solvers skip: [if action_prob <= 0:
    continue]. *)
Definition prune_policy (policy : PolicyTable) : PolicyTable := {|
  get_action_probabilities := fun s =>
    List.filter (fun item => negb (n_leb item.2 n_zero))
                (get_action_probabilities policy s)
|}.

(** The model [M] with the distributions of the state [s0] replaced by
    [dist]. *)
Definition with_distribution (M : MDPNetwork) (s0 : state)
    (dist : nat -> list (state * num)) : MDPNetwork := {|
  states := states M;
  num_actions := num_actions M;
  start_states := start_states M;
  is_terminal_state := is_terminal_state M;
  get_transition_probabilities := fun s a =>
    if decide (s = s0) then dist a else get_transition_probabilities M s a;
  get_state_reward := get_state_reward M
|}.

(** The reward one step under [policy] brings from [s]: the one-step rewards
    of the actions of positive probability, weighted by the policy. *)
Definition policy_reward (M : MDPNetwork) (policy : PolicyTable) (s : state) : num :=
  fold_left
    (fun acc '(action, action_prob) =>
       if n_leb action_prob n_zero then acc
       else n_add acc (n_mul action_prob (one_step_reward M s action)))
    (get_action_probabilities policy s) n_zero.

(** The keys of the dictionary [d] are the states of the model. *)
Definition spans (M : MDPNetwork) (d : list (state * num)) : Prop :=
  ∀ s, is_Some (dict_get d s) ↔ s ∈ states M.

(** ** The runs of q_learning

    [q_learning] above takes what it calls outside [solvers.py] as
    functions, which settles from the start that a call has one answer.
    To speak of two runs, the same calls are taken here as relations: what
    a call may answer, given its arguments and the state of the generator.
    The order in which [for state in states] meets the states is left open
    too: an enumeration of [states] in any order. *)

Section Runs.

Context {rng : Type}.

Record Collaborators := {
  (** [np.random.default_rng(seed)] for an integer seed *)
  seeds_to : Z -> rng -> Prop;
  (** [rng.random()] *)
  random_gives : rng -> num -> rng -> Prop;
  (** [rng.integers(low, high)] *)
  integers_gives : nat -> nat -> rng -> nat -> rng -> Prop;
  (** [mdp_network.sample_start_state(rng)] *)
  start_state_gives : rng -> state -> rng -> Prop;
  (** [mdp_network.sample_next_state(state, action, rng)] *)
  next_state_gives : state -> nat -> rng -> state -> rng -> Prop;
  (** [q_table.get_best_action(state)] *)
  best_action_gives : QTable -> state -> nat -> num -> Prop
}.

(** Every call has at most one answer: the generator is a function of its
    seed and its state, the model samples from the generator it is handed
    and from nothing else, and the best action is settled by the table. *)
Record Deterministic (C : Collaborators) : Prop := {
  seeds_to_one : ∀ z g g', seeds_to C z g → seeds_to C z g' → g = g';
  random_gives_one : ∀ g u g1 u' g1',
    random_gives C g u g1 → random_gives C g u' g1' → u = u' ∧ g1 = g1';
  integers_gives_one : ∀ low high g a g1 a' g1',
    integers_gives C low high g a g1 → integers_gives C low high g a' g1' →
    a = a' ∧ g1 = g1';
  start_state_gives_one : ∀ g s g1 s' g1',
    start_state_gives C g s g1 → start_state_gives C g s' g1' → s = s' ∧ g1 = g1';
  next_state_gives_one : ∀ s a g s1 g1 s1' g1',
    next_state_gives C s a g s1 g1 → next_state_gives C s a g s1' g1' →
    s1 = s1' ∧ g1 = g1';
  best_action_gives_one : ∀ Q s a q a' q',
    best_action_gives C Q s a q → best_action_gives C Q s a' q' → a = a' ∧ q = q'
}.

(** The functions [q_learning] is given, as relations. *)
Definition as_relations (seeded_rng : Z -> rng) (rng_random : rng -> num * rng)
    (rng_integers : nat -> nat -> rng -> nat * rng) (smp : Sampling)
    (get_best_action : QTable -> state -> nat * num) : Collaborators := {|
  seeds_to := fun z g => g = seeded_rng z;
  random_gives := fun g u g' => rng_random g = (u, g');
  integers_gives := fun low high g a g' => rng_integers low high g = (a, g');
  start_state_gives := fun g s g' => sample_start_state smp g = (s, g');
  next_state_gives := fun s a g s' g' => sample_next_state smp s a g = (s', g');
  best_action_gives := fun Q s a q => get_best_action Q s = (a, q)
|}.

(** The epsilon-greedy choice, for the draw [u]. *)
Inductive chooses (C : Collaborators) (M : MDPNetwork) (epsilon : num)
    (Q : QTable) (current_state : state) (u : num) (g : rng) : nat -> rng -> Prop :=
  | chooses_random action g' :
      n_ltb u epsilon = true →
      integers_gives C 0 (num_actions M) g action g' →
      chooses C M epsilon Q current_state u g action g'
  | chooses_best action q :
      n_ltb u epsilon = false →
      best_action_gives C Q current_state action q →
      chooses C M epsilon Q current_state u g action g.

(** The target Q-value. *)
Inductive targets (C : Collaborators) (M : MDPNetwork) (gamma : num)
    (Q : QTable) (next_state : state) : num -> Prop :=
  | targets_terminal :
      is_terminal_state M next_state = true →
      targets C M gamma Q next_state (get_state_reward M next_state)
  | targets_best action max_next_q :
      is_terminal_state M next_state = false →
      best_action_gives C Q next_state action max_next_q →
      targets C M gamma Q next_state
              (n_add (get_state_reward M next_state) (n_mul gamma max_next_q)).

(** [for step in range(max_steps_per_episode)], with [steps] iterations to
    go: from a state, a generator and a Q-table to the generator and the
    Q-table the episode leaves. *)
Inductive steps_run (C : Collaborators) (M : MDPNetwork) (alpha gamma epsilon : num)
  : nat -> state -> rng -> QTable -> rng -> QTable -> Prop :=
  | steps_exhausted current_state g Q :
      steps_run C M alpha gamma epsilon 0 current_state g Q g Q
  | steps_terminal steps current_state g Q :
      is_terminal_state M current_state = true →
      steps_run C M alpha gamma epsilon (S steps) current_state g Q g Q
  | steps_step steps current_state g Q u g1 action g2 next_state g3 target_q g' Q' :
      is_terminal_state M current_state = false →
      random_gives C g u g1 →
      chooses C M epsilon Q current_state u g1 action g2 →
      next_state_gives C current_state action g2 next_state g3 →
      targets C M gamma Q next_state target_q →
      steps_run C M alpha gamma epsilon steps next_state g3
        (set_q_value Q current_state action
           (n_add (get_q_value Q current_state action)
                  (n_mul alpha (n_sub target_q (get_q_value Q current_state action)))))
        g' Q' →
      steps_run C M alpha gamma epsilon (S steps) current_state g Q g' Q'.

(** [for episode in range(num_episodes)], with [remaining] episodes to go;
    an episode whose progress test raises has no outcome. *)
Inductive episodes_run (C : Collaborators) (M : MDPNetwork) (alpha gamma epsilon : num)
    (num_episodes max_steps_per_episode : nat)
  : nat -> nat -> rng -> QTable -> list Diag -> QTable -> list Diag -> Prop :=
  | episodes_done episode g Q out :
      episodes_run C M alpha gamma epsilon num_episodes max_steps_per_episode
                   0 episode g Q out Q out
  | episodes_step remaining episode g Q out current_state g1 g2 Q1 printed Q' out' :
      start_state_gives C g current_state g1 →
      steps_run C M alpha gamma epsilon max_steps_per_episode current_state g1 Q g2 Q1 →
      ql_progress num_episodes episode = Ok printed →
      episodes_run C M alpha gamma epsilon num_episodes max_steps_per_episode
                   remaining (S episode) g2 Q1 (out ++ printed) Q' out' →
      episodes_run C M alpha gamma epsilon num_episodes max_steps_per_episode
                   (S remaining) episode g Q out Q' out'.

(** The initial loop, over an enumeration of the states. *)
Definition init_tables_over (M : MDPNetwork) (enumeration : list state)
  : ValueTable * QTable :=
  fold_left (fun '(V, Q) s => (set_value V s n_zero, zero_q_row M Q s))
            enumeration (∅, ∅).

(** The final loop, over an enumeration of the states. *)
Inductive extracts (C : Collaborators) (M : MDPNetwork) (Q : QTable)
  : list state -> ValueTable -> ValueTable -> Prop :=
  | extracts_done V : extracts C M Q [] V V
  | extracts_terminal s enumeration V V' :
      is_terminal_state M s = true →
      extracts C M Q enumeration (set_value V s n_zero) V' →
      extracts C M Q (s :: enumeration) V V'
  | extracts_best s enumeration V V' action best_q_value :
      is_terminal_state M s = false →
      best_action_gives C Q s action best_q_value →
      extracts C M Q enumeration (set_value V s best_q_value) V' →
      extracts C M Q (s :: enumeration) V V'.

(** A run of [q_learning] that returns the tables and the printed lines
    [result].  Without a seed the generator starts anywhere. *)
Definition returns (C : Collaborators) (M : MDPNetwork) (alpha gamma epsilon : num)
    (num_episodes max_steps_per_episode : nat) (seed : option Z)
    (result : QTable * ValueTable * list Diag) : Prop :=
  ∃ g first last Q out V,
    match seed with Some z => seeds_to C z g | None => True end
    ∧ first ≡ₚ states M
    ∧ last ≡ₚ states M
    ∧ episodes_run C M alpha gamma epsilon num_episodes max_steps_per_episode
                   num_episodes 0 g (init_tables_over M first).2 [] Q out
    ∧ extracts C M Q last (init_tables_over M first).1 V
    ∧ result = (Q, V, out).

End Runs.

End Solvers.

Arguments MDPNetwork state num : clear implicits.
Arguments PolicyTable state num : clear implicits.
Arguments Sampling state rng : clear implicits.
Arguments Collaborators state {_ _} num rng.

(** Containers that answer 0 for a key never set. *)
Definition zero_unset {num} `{Num num} : TableDefaults num :=
  {| value_unset := n_zero; q_unset := n_zero |}.

(** ** Concrete models *)

(** The two-state chain [A -> B], [B] terminal, on Python floats. *)
Module Chain.

#[local] Existing Instance zero_unset.

Definition mdp : MDPNetwork string float := {|
  states := ["A"; "B"];
  num_actions := 1;
  start_states := ["A"];
  is_terminal_state := fun s => String.eqb s "B";
  get_transition_probabilities := fun s a =>
    if String.eqb s "A" && Nat.eqb a 0 then [("B", 1%float)] else [];
  get_state_reward := fun s => if String.eqb s "B" then 1%float else 0%float
|}.

Definition policy : PolicyTable string float := {|
  get_action_probabilities := fun _ => [(0, 1%float)]
|}.

(** The defaults of the signature: [gamma=0.9, theta=1e-6,
    max_iterations=1000]. *)
Definition gamma : float := 0.9%float.
Definition theta : float := 1e-6%float.
Definition max_iterations : nat := 1000.

Definition solved : gmap string float * gmap (string * nat) float * list Diag :=
  optimal_value_iteration mdp gamma theta max_iterations.

End Chain.

(** A choice between two rewards, for [q_learning]: from [S], action 0 leads
    to [L] (reward 1) and action 1 to [R] (reward 5). *)
Module Pick.

#[local] Existing Instance zero_unset.

Definition mdp : MDPNetwork string float := {|
  states := ["S"; "L"; "R"];
  num_actions := 2;
  start_states := ["S"];
  is_terminal_state := fun s => negb (String.eqb s "S");
  get_transition_probabilities := fun s a =>
    if String.eqb s "S" then [(if Nat.eqb a 0 then "L" else "R", 1%float)] else [];
  get_state_reward := fun s =>
    if String.eqb s "L" then 1%float
    else if String.eqb s "R" then 5%float
    else 0%float
|}.

(** A toy generator, a counter: its draws alternate between 0.0 and 1.0. *)
Definition rng : Type := nat.
Definition seeded_rng (seed : Z) : rng := Z.to_nat seed.
Definition rng_random (g : rng) : float * rng :=
  (if Nat.even g then 0%float else 1%float, S g).
Definition rng_integers (low high : nat) (g : rng) : nat * rng :=
  (low + g mod (high - low), S g).

(** The transitions are deterministic, so sampling draws nothing. *)
Definition sampling : Sampling string rng := {|
  sample_start_state := fun g => ("S", g);
  sample_next_state := fun _ a g => (if Nat.eqb a 0 then "L" else "R", g)
|}.

(** [q_learning] with the defaults [alpha=0.1, gamma=0.9, epsilon=0.1,
    max_steps_per_episode=1000]. *)
Definition learn (num_episodes : nat) (seed : option Z) (os_entropy : rng)
  : Result (gmap (string * nat) float * gmap string float * list Diag) :=
  q_learning seeded_rng rng_random rng_integers (first_best_action 2)
             mdp sampling 0.1%float 0.9%float 0.1%float num_episodes 1000
             seed os_entropy.

End Pick.

(** A three-state relay [A -> B -> C], [C] terminal, swept in the order
    [B, A, C]. *)
Module Relay.

#[local] Existing Instance zero_unset.

Definition mdp : MDPNetwork string float := {|
  states := ["B"; "A"; "C"];
  num_actions := 1;
  start_states := ["A"];
  is_terminal_state := fun s => String.eqb s "C";
  get_transition_probabilities := fun s a =>
    if String.eqb s "A" then [("B", 1%float)]
    else if String.eqb s "B" then [("C", 1%float)]
    else [];
  get_state_reward := fun s => if String.eqb s "C" then 1%float else 0%float
|}.

Definition policy : PolicyTable string float := {|
  get_action_probabilities := fun _ => [(0, 1%float)]
|}.

Definition gamma : float := 0.9%float.

End Relay.

(** A fork on exact rationals: from [S], action 0 leads to [L] and action 1
    to [L] or [R] with equal odds; [A 1] has no distribution at [T].  *)
Module Fork.

#[local] Existing Instance zero_unset.

Definition half : Qc := Q2Qc (1 # 2).

Definition mdp : MDPNetwork string Qc := {|
  states := ["S"; "T"; "L"; "R"];
  num_actions := 2;
  start_states := ["S"; "T"];
  is_terminal_state := fun s => String.eqb s "L" || String.eqb s "R";
  get_transition_probabilities := fun s a =>
    if String.eqb s "S" then
      if Nat.eqb a 0 then [("L", 1%Qc)] else [("L", half); ("R", half)]
    else if String.eqb s "T" && Nat.eqb a 0 then [("S", 1%Qc)]
    else [];
  get_state_reward := fun s =>
    if String.eqb s "L" then 1%Qc
    else if String.eqb s "R" then Q2Qc 5
    else 0%Qc
|}.

Definition policy : PolicyTable string Qc := {|
  get_action_probabilities := fun _ => [(0, half); (1, half)]
|}.

(** A policy with nothing to weigh at [S]: a zero and a negative weight. *)
Definition idle_policy : PolicyTable string Qc := {|
  get_action_probabilities := fun s =>
    if String.eqb s "S" then [(0, 0%Qc); (1, (- half)%Qc)]
    else [(0, 1%Qc)]
|}.

Definition gamma : Qc := Q2Qc (9 # 10).
Definition theta : Qc := Q2Qc (1 # 1000000).

(** The fork without its start states. *)
Definition without_start : MDPNetwork string Qc := {|
  states := states mdp;
  num_actions := num_actions mdp;
  start_states := [];
  is_terminal_state := is_terminal_state mdp;
  get_transition_probabilities := get_transition_probabilities mdp;
  get_state_reward := get_state_reward mdp
|}.

End Fork.

(** A model with an infinite penalty, on Python floats: from [A], action 0
    leads to [X], whose reward is [-inf] and which loops on itself, and
    action 1 leads to the terminal [B], whose reward is 1. *)
Module Abyss.

#[local] Existing Instance zero_unset.

Definition mdp : MDPNetwork string float := {|
  states := ["A"; "X"; "B"];
  num_actions := 2;
  start_states := ["A"];
  is_terminal_state := fun s => String.eqb s "B";
  get_transition_probabilities := fun s a =>
    if String.eqb s "A" then
      if Nat.eqb a 0 then [("X", 1%float)] else [("B", 1%float)]
    else if String.eqb s "X" then [("X", 1%float)]
    else [];
  get_state_reward := fun s =>
    if String.eqb s "B" then 1%float
    else if String.eqb s "X" then neg_infinity
    else 0%float
|}.

(** [optimal_value_iteration] with [gamma = 0] and the default [theta] and
    [max_iterations]. *)
Definition solved : gmap string float * gmap (string * nat) float * list Diag :=
  optimal_value_iteration mdp 0%float 1e-6%float 1000.

End Abyss.

(** A model that leaks: the only state [A] leads to [Z], which is not among
    its states. *)
Module Leak.

#[local] Existing Instance zero_unset.

Definition mdp : MDPNetwork string Qc := {|
  states := ["A"];
  num_actions := 1;
  start_states := ["A"];
  is_terminal_state := fun _ => false;
  get_transition_probabilities := fun _ _ => [("Z", 1%Qc)];
  get_state_reward := fun _ => 0%Qc
|}.

Definition policy : PolicyTable string Qc := {|
  get_action_probabilities := fun _ => [(0, 1%Qc)]
|}.

End Leak.

(** The chain [A -> B] on exact rationals, with its single action and the
    policy that takes it. *)
Module Solo.

#[local] Existing Instance zero_unset.

Definition mdp : MDPNetwork string Qc := {|
  states := ["A"; "B"];
  num_actions := 1;
  start_states := ["A"];
  is_terminal_state := fun s => String.eqb s "B";
  get_transition_probabilities := fun s a =>
    if String.eqb s "A" && Nat.eqb a 0 then [("B", 1%Qc)] else [];
  get_state_reward := fun s => if String.eqb s "B" then 1%Qc else 0%Qc
|}.

Definition policy : PolicyTable string Qc := {|
  get_action_probabilities := fun _ => [(0, 1%Qc)]
|}.

End Solo.

(** * Properties *)

(** ** Loops over lists *)

Section Folds.

Context {A B : Type}.

(** An invariant every iteration keeps holds after the loop. *)
Lemma fold_left_keeps (P : A → Prop) (f : A → B → A) (l : list B) (a : A) :
  (∀ a b, b ∈ l → P a → P (f a b)) → P a → P (fold_left f l a).
Proof.
  revert a. induction l as [|b l IH]; intros a Hstep Ha; simpl; [done|].
  apply IH.
  - intros a' b' Hb'. apply Hstep. by right.
  - apply Hstep; [by left | done].
Qed.

(** A property the iteration for [b] establishes, and every iteration
    keeps, holds after a loop that meets [b]. *)
Lemma fold_left_sets (P : A → Prop) (f : A → B → A) (l : list B) (a : A) (b : B) :
  b ∈ l → (∀ a, P (f a b)) → (∀ a b', P a → P (f a b')) → P (fold_left f l a).
Proof.
  intros Hin Hset Hkeep. apply list_elem_of_split in Hin as (l1 & l2 & ->).
  rewrite fold_left_app. simpl.
  apply fold_left_keeps; [intros; by apply Hkeep | apply Hset].
Qed.

Lemma fold_left_ext_in (f g : A → B → A) (l : list B) (a : A) :
  (∀ a b, b ∈ l → f a b = g a b) → fold_left f l a = fold_left g l a.
Proof.
  revert a. induction l as [|b l IH]; intros a Hfg; simpl; [done|].
  rewrite Hfg by (by left). apply IH. intros a' b' Hb'. apply Hfg. by right.
Qed.

Lemma foldM_ext (f g : A → B → Result A) (l : list B) (a : A) :
  (∀ a b, f a b = g a b) → foldM f l a = foldM g l a.
Proof.
  intros Hfg. revert a. induction l as [|b l IH]; intros a; simpl; [done|].
  rewrite Hfg. destruct (g a b); simpl; [apply IH | done].
Qed.

(** The same for a loop whose body may raise, when the loop completes. *)
Lemma foldM_keeps (P : A → Prop) (f : A → B → Result A) (l : list B) (a a' : A) :
  (∀ a b a', b ∈ l → P a → f a b = Ok a' → P a') →
  P a → foldM f l a = Ok a' → P a'.
Proof.
  revert a. induction l as [|b l IH]; intros a Hstep Ha; simpl.
  - intros [= <-]. done.
  - destruct (f a b) as [a1|e] eqn:Hf; simpl; [|done].
    apply IH.
    + intros a2 b2 a3 Hb2. apply Hstep. by right.
    + eapply Hstep; [by left | done | done].
Qed.

(** A loop whose body returns wherever the invariant holds, and keeps it,
    returns. *)
Lemma foldM_returns (P : A → Prop) (f : A → B → Result A) (l : list B) (a : A) :
  (∀ a b, b ∈ l → P a → ∃ a', f a b = Ok a' ∧ P a') →
  P a → ∃ a', foldM f l a = Ok a' ∧ P a'.
Proof.
  revert a. induction l as [|b l IH]; intros a Hstep Ha; simpl; [eauto|].
  destruct (Hstep a b) as (a1 & -> & Ha1); [by left | done |]. simpl.
  apply IH; [|done]. intros a2 b2 Hb2. apply Hstep. by right.
Qed.

End Folds.

(** ** The tables *)

Section Tables.

Context {state : Type} `{Countable state}.
Context {num : Type} `{Num num} `{TableDefaults num}.
Implicit Types (V : gmap state num) (Q : gmap (state * nat) num).
Implicit Types (s : state) (a : nat).

Lemma get_set_value V s v : get_value (set_value V s v) s = v.
Proof. unfold get_value, set_value. by rewrite lookup_insert_eq. Qed.

Lemma get_set_value_ne V s s' v :
  s ≠ s' → get_value (set_value V s v) s' = get_value V s'.
Proof. intros Hne. unfold get_value, set_value. by rewrite lookup_insert_ne. Qed.

Lemma get_set_q_value Q s a v : get_q_value (set_q_value Q s a v) s a = v.
Proof. unfold get_q_value, set_q_value. by rewrite lookup_insert_eq. Qed.

Lemma get_set_q_value_ne Q s a s' a' v :
  (s, a) ≠ (s', a') → get_q_value (set_q_value Q s a v) s' a' = get_q_value Q s' a'.
Proof. intros Hne. unfold get_q_value, set_q_value. by rewrite lookup_insert_ne. Qed.

Context (M : MDPNetwork state num).

(** Zeroing the row of [s] gives 0 at every action of the model. *)
Lemma zero_q_row_same Q s a :
  a < num_actions M → get_q_value (zero_q_row M Q s) s a = n_zero.
Proof.
  intros Ha. unfold zero_q_row.
  apply (fold_left_sets (λ Q, get_q_value Q s a = n_zero)) with (b := a).
  - apply elem_of_seq. lia.
  - intros Q'. apply get_set_q_value.
  - intros Q' a' HQ'. destruct (decide (a' = a)) as [->|Hne].
    + apply get_set_q_value.
    + rewrite get_set_q_value_ne; [done | congruence].
Qed.

(** It leaves the rows of the other states alone. *)
Lemma zero_q_row_other Q s s' a :
  s ≠ s' → get_q_value (zero_q_row M Q s) s' a = get_q_value Q s' a.
Proof.
  intros Hne. unfold zero_q_row.
  apply (fold_left_keeps (λ Q', get_q_value Q' s' a = get_q_value Q s' a)); [|done].
  intros Q' a' _ HQ'. rewrite get_set_q_value_ne; [done | congruence].
Qed.

Lemma init_values_zero s : s ∈ states M → get_value (init_values M) s = n_zero.
Proof.
  intros Hs. unfold init_values.
  apply (fold_left_sets (λ V, get_value V s = n_zero)) with (b := s); [done|..].
  - intros V. apply get_set_value.
  - intros V s' HV. destruct (decide (s' = s)) as [->|Hne].
    + apply get_set_value.
    + by rewrite get_set_value_ne.
Qed.

Lemma init_tables_values : (init_tables M).1 = init_values M.
Proof.
  unfold init_tables, init_values.
  generalize (∅ : gmap state num) (∅ : gmap (state * nat) num).
  induction (states M) as [|s l IH]; intros V Q; simpl; [done|]. apply IH.
Qed.

Lemma init_tables_zero s a :
  s ∈ states M → a < num_actions M → get_q_value (init_tables M).2 s a = n_zero.
Proof.
  intros Hs Ha. unfold init_tables.
  apply (fold_left_sets (λ VQ : gmap state num * gmap (state * nat) num,
                           get_q_value VQ.2 s a = n_zero)) with (b := s); [done|..].
  - intros [V Q]. simpl. by apply zero_q_row_same.
  - intros [V Q] s' HQ. simpl in *. destruct (decide (s' = s)) as [->|Hne].
    + by apply zero_q_row_same.
    + by rewrite zero_q_row_other.
Qed.

End Tables.

(** ** Invariants of the two value solvers *)

Section ValueSolvers.

Context {state : Type} `{Countable state}.
Context {num : Type} `{Num num} `{TableDefaults num}.
Context (M : MDPNetwork state num).
Implicit Types (V : gmap state num) (Q : gmap (state * nat) num).
Implicit Types (s : state) (a : nat) (gamma theta : num).

(** The state loop of [policy_evaluation] writes the entry of the state it
    visits and no other. *)
Lemma pe_step_other policy gamma V max_delta s s' :
  s ≠ s' →
  get_value (pe_step M policy gamma (V, max_delta) s).1 s' = get_value V s'.
Proof.
  intros Hne. unfold pe_step.
  destruct (is_terminal_state M s); simpl; by rewrite get_set_value_ne.
Qed.

Lemma pe_sweep_keeps (P : gmap state num → Prop) policy gamma V :
  (∀ V max_delta s, s ∈ states M → P V → P (pe_step M policy gamma (V, max_delta) s).1) →
  P V → P (pe_sweep M policy gamma V).1.
Proof.
  intros Hstep HV. unfold pe_sweep.
  apply (fold_left_keeps (λ acc, P acc.1)); [|done].
  intros [V' md] s Hs. by apply Hstep.
Qed.

Lemma pe_loop_keeps (P : gmap state num → Prop) policy gamma theta
    max_iterations remaining iteration V :
  (∀ V, P V → P (pe_sweep M policy gamma V).1) →
  P V → P (pe_loop M policy gamma theta max_iterations remaining iteration V).1.
Proof.
  intros Hsweep. revert iteration V.
  induction remaining as [|r IH]; intros iteration V HV; simpl; [done|].
  specialize (Hsweep V HV).
  destruct (pe_sweep M policy gamma V) as [V' md]. simpl in Hsweep.
  destruct (n_ltb md theta); [done | by apply IH].
Qed.

(** What every pass of the state loop keeps, the returned table has. *)
Lemma policy_evaluation_keeps (P : gmap state num → Prop) policy gamma theta
    max_iterations :
  (∀ V max_delta s, s ∈ states M → P V → P (pe_step M policy gamma (V, max_delta) s).1) →
  P (init_values M) →
  P (policy_evaluation M policy gamma theta max_iterations).1.
Proof.
  intros Hstep Hinit. unfold policy_evaluation.
  apply pe_loop_keeps; [|done]. intros V HV. by apply pe_sweep_keeps.
Qed.

(** The action loop of [optimal_value_iteration] collects the backups of
    the actions in order, and writes the row of its state only. *)
Lemma ovi_actions_values gamma V s Q :
  (ovi_actions M gamma V s Q).2 = map (backup_sum M gamma V s) (seq 0 (num_actions M)).
Proof.
  unfold ovi_actions.
  enough (Hgen : ∀ l Q avs,
    (fold_left
       (λ '(Q, action_values) action,
          let q_value := backup_sum M gamma V s action in
          (set_q_value Q s action q_value, action_values ++ [q_value]))
       l (Q, avs)).2 = avs ++ map (backup_sum M gamma V s) l)
    by apply (Hgen _ _ []).
  clear Q. induction l as [|a l IH]; intros Q avs; simpl.
  - by rewrite app_nil_r.
  - rewrite IH. by rewrite <- app_assoc.
Qed.

Lemma ovi_actions_other gamma V s Q s' a :
  s ≠ s' → get_q_value (ovi_actions M gamma V s Q).1 s' a = get_q_value Q s' a.
Proof.
  intros Hne. unfold ovi_actions.
  apply (fold_left_keeps (λ acc : gmap (state * nat) num * list num,
                            get_q_value acc.1 s' a = get_q_value Q s' a)); [|done].
  intros [Q' avs] a' _ HQ'. simpl in *.
  rewrite get_set_q_value_ne; [done | congruence].
Qed.

Lemma ovi_step_other gamma V Q max_delta s s' :
  s ≠ s' →
  get_value (ovi_step M gamma (V, Q, max_delta) s).1.1 s' = get_value V s'.
Proof.
  intros Hne. unfold ovi_step.
  destruct (is_terminal_state M s); simpl; [by rewrite get_set_value_ne|].
  destruct (ovi_actions M gamma V s Q) as [Q' avs]. simpl.
  by rewrite get_set_value_ne.
Qed.

Lemma ovi_step_other_q gamma V Q max_delta s s' a :
  s ≠ s' →
  get_q_value (ovi_step M gamma (V, Q, max_delta) s).1.2 s' a = get_q_value Q s' a.
Proof.
  intros Hne. unfold ovi_step.
  destruct (is_terminal_state M s); simpl; [by rewrite zero_q_row_other|].
  pose proof (ovi_actions_other gamma V s Q s' a Hne) as Hq.
  destruct (ovi_actions M gamma V s Q) as [Q' avs]. done.
Qed.

(** The value a non-terminal state gets: the maximum of its backups. *)
Lemma ovi_step_value gamma V Q max_delta s :
  is_terminal_state M s = false →
  get_value (ovi_step M gamma (V, Q, max_delta) s).1.1 s
  = py_max_list (map (backup_sum M gamma V s) (seq 0 (num_actions M))).
Proof.
  intros Hs. unfold ovi_step. rewrite Hs.
  pose proof (ovi_actions_values gamma V s Q) as Hv.
  destruct (ovi_actions M gamma V s Q) as [Q' avs]. simpl in *.
  by rewrite get_set_value, Hv.
Qed.

Lemma ovi_sweep_keeps (P : gmap state num * gmap (state * nat) num → Prop) gamma V Q :
  (∀ V Q max_delta s, s ∈ states M → P (V, Q) → P (ovi_step M gamma (V, Q, max_delta) s).1) →
  P (V, Q) → P (ovi_sweep M gamma V Q).1.
Proof.
  intros Hstep HV. unfold ovi_sweep.
  apply (fold_left_keeps (λ acc, P acc.1)); [|done].
  intros [[V' Q'] md] s Hs. by apply Hstep.
Qed.


Lemma ovi_loop_keeps (P : gmap state num * gmap (state * nat) num → Prop)
    gamma theta max_iterations remaining iteration V Q :
  (∀ V Q, P (V, Q) → P (ovi_sweep M gamma V Q).1) →
  P (V, Q) → P (ovi_loop M gamma theta max_iterations remaining iteration V Q).1.
Proof.
  intros Hsweep. revert iteration V Q.
  induction remaining as [|r IH]; intros iteration V Q HV; simpl; [done|].
  specialize (Hsweep V Q HV).
  destruct (ovi_sweep M gamma V Q) as [[V' Q'] md]. simpl in Hsweep.
  destruct (n_ltb md theta); [done | by apply IH].
Qed.


(** A run that reports convergence has swept at least once. *)
Lemma ovi_converged_ran gamma theta max_iterations iterations :
  (optimal_value_iteration M gamma theta max_iterations).2 = [OVIConverged iterations] →
  0 < max_iterations.
Proof.
  unfold optimal_value_iteration. destruct (init_tables M) as [V Q].
  destruct max_iterations; [done | lia].
Qed.

Lemma optimal_value_iteration_keeps
    (P : gmap state num * gmap (state * nat) num → Prop) gamma theta max_iterations :
  (∀ V Q max_delta s, s ∈ states M → P (V, Q) → P (ovi_step M gamma (V, Q, max_delta) s).1) →
  P (init_tables M) →
  P (optimal_value_iteration M gamma theta max_iterations).1.
Proof.
  intros Hstep Hinit. unfold optimal_value_iteration.
  destruct (init_tables M) as [V Q].
  apply ovi_loop_keeps; [|done]. intros V' Q' HV. by apply ovi_sweep_keeps.
Qed.

(** C2. For every model and all parameters, [policy_evaluation] and
    [optimal_value_iteration] return a table in which every terminal state
    of the model has value 0, and [optimal_value_iteration] returns
    [Q(s, a) = 0] for every terminal state [s] and every action [a] of the
    model. *)
Theorem terminal_states_are_zero policy gamma theta max_iterations s :
  s ∈ states M →
  is_terminal_state M s = true →
  get_value (policy_evaluation M policy gamma theta max_iterations).1 s = n_zero
  ∧ get_value (optimal_value_iteration M gamma theta max_iterations).1.1 s = n_zero
  ∧ ∀ a, a < num_actions M →
      get_q_value (optimal_value_iteration M gamma theta max_iterations).1.2 s a = n_zero.
Proof.
  intros Hs Hterm. split.
  - apply (policy_evaluation_keeps (λ V, get_value V s = n_zero));
      [|by apply init_values_zero].
    intros V md s' _ HV. destruct (decide (s' = s)) as [->|Hne].
    + unfold pe_step. rewrite Hterm. apply get_set_value.
    + by rewrite pe_step_other.
  - apply (optimal_value_iteration_keeps
             (λ VQ, get_value VQ.1 s = n_zero
                    ∧ ∀ a, a < num_actions M → get_q_value VQ.2 s a = n_zero)).
    + intros V Q md s' _ [HV HQ]. destruct (decide (s' = s)) as [->|Hne].
      * unfold ovi_step. rewrite Hterm. simpl. split; [apply get_set_value|].
        intros a Ha. by apply zero_q_row_same.
      * split; [by rewrite ovi_step_other|].
        intros a Ha. rewrite ovi_step_other_q; [by apply HQ | done].
    + split.
      * rewrite init_tables_values. by apply init_values_zero.
      * intros a Ha. by apply init_tables_zero.
Qed.

(** A state whose action probabilities are all non-positive gets the empty
    sum. *)
Lemma pe_new_value_idle policy gamma V s :
  (∀ a p, (a, p) ∈ get_action_probabilities policy s → n_leb p n_zero = true) →
  pe_new_value M policy gamma V s = n_zero.
Proof.
  intros Hidle. unfold pe_new_value.
  apply (fold_left_keeps (λ v, v = n_zero)); [|done].
  intros v [a p] Hin ->. by rewrite (Hidle a p Hin).
Qed.

(** C10. If the policy gives a non-terminal state no action, or only
    actions of non-positive probability, every sweep of [policy_evaluation]
    writes 0 for that state and the returned table holds 0 for it. *)
Theorem idle_state_is_zero policy gamma theta max_iterations s :
  s ∈ states M →
  is_terminal_state M s = false →
  (∀ a p, (a, p) ∈ get_action_probabilities policy s → n_leb p n_zero = true) →
  (∀ V, get_value (pe_sweep M policy gamma V).1 s = n_zero)
  ∧ get_value (policy_evaluation M policy gamma theta max_iterations).1 s = n_zero.
Proof.
  intros Hs Hterm Hidle.
  assert (Hstep : ∀ V md, get_value (pe_step M policy gamma (V, md) s).1 s = n_zero).
  { intros V md. unfold pe_step. rewrite Hterm. simpl.
    by rewrite get_set_value, pe_new_value_idle. }
  assert (Hkeep : ∀ V md s', get_value V s = n_zero →
                  get_value (pe_step M policy gamma (V, md) s').1 s = n_zero).
  { intros V md s' HV. destruct (decide (s' = s)) as [->|Hne]; [apply Hstep|].
    by rewrite pe_step_other. }
  split.
  - intros V. unfold pe_sweep.
    apply (fold_left_sets (λ acc, get_value acc.1 s = n_zero)) with (b := s); [done|..].
    + intros [V' md]. apply Hstep.
    + intros [V' md] s'. apply Hkeep.
  - apply (policy_evaluation_keeps (λ V, get_value V s = n_zero));
      [|by apply init_values_zero].
    intros V md s' _. apply Hkeep.
Qed.

End ValueSolvers.

(** ** An empty distribution is a self-loop *)

Section SelfLoop.

Context {state : Type} `{Countable state}.
Context {num : Type} `{Num num} `{TableDefaults num}.
Context (M : MDPNetwork state num) (s0 : state) (a0 : nat).
Context (Hempty : get_transition_probabilities M s0 a0 = []).

#[local] Abbreviation M' := (with_self_loop M s0 a0).

(** Once resolved, the two models have the same distributions. *)
Lemma resolve_with_self_loop s a :
  resolve_transitions M' s a = resolve_transitions M s a.
Proof using Hempty.
  unfold resolve_transitions. simpl.
  case_decide as Heq; [|done]. destruct Heq as [-> ->]. by rewrite Hempty.
Qed.

Lemma backup_sum_with_self_loop gamma V s a :
  backup_sum M' gamma V s a = backup_sum M gamma V s a.
Proof using Hempty. unfold backup_sum. by rewrite resolve_with_self_loop. Qed.

Lemma pe_step_with_self_loop policy gamma acc s :
  pe_step M' policy gamma acc s = pe_step M policy gamma acc s.
Proof using Hempty.
  assert (Hnew : ∀ V, pe_new_value M' policy gamma V s = pe_new_value M policy gamma V s).
  { intros V. unfold pe_new_value. apply fold_left_ext_in.
    intros v [a p] _. by rewrite backup_sum_with_self_loop. }
  unfold pe_step. destruct acc as [V md]. simpl. by rewrite Hnew.
Qed.

Lemma policy_evaluation_with_self_loop policy gamma theta max_iterations :
  policy_evaluation M' policy gamma theta max_iterations
  = policy_evaluation M policy gamma theta max_iterations.
Proof using Hempty.
  assert (Hsweep : ∀ V, pe_sweep M' policy gamma V = pe_sweep M policy gamma V).
  { intros V. unfold pe_sweep. simpl. apply fold_left_ext_in.
    intros acc s _. apply pe_step_with_self_loop. }
  unfold policy_evaluation. change (init_values M') with (init_values M).
  generalize (init_values M) as V. generalize 0 as iteration.
  generalize max_iterations at 2 4 as remaining.
  induction remaining as [|r IH]; intros iteration V; simpl; [done|].
  rewrite Hsweep. destruct (pe_sweep M policy gamma V) as [V' md].
  destruct (n_ltb md theta); [done | apply IH].
Qed.

Lemma ovi_step_with_self_loop gamma acc s :
  ovi_step M' gamma acc s = ovi_step M gamma acc s.
Proof using Hempty.
  assert (Hact : ∀ V Q, ovi_actions M' gamma V s Q = ovi_actions M gamma V s Q).
  { intros V Q. unfold ovi_actions. simpl. apply fold_left_ext_in.
    intros [Q' avs] a _. by rewrite backup_sum_with_self_loop. }
  unfold ovi_step. destruct acc as [[V Q] md]. simpl. by rewrite Hact.
Qed.

Lemma optimal_value_iteration_with_self_loop gamma theta max_iterations :
  optimal_value_iteration M' gamma theta max_iterations
  = optimal_value_iteration M gamma theta max_iterations.
Proof using Hempty.
  assert (Hsweep : ∀ V Q, ovi_sweep M' gamma V Q = ovi_sweep M gamma V Q).
  { intros V Q. unfold ovi_sweep. simpl. apply fold_left_ext_in.
    intros acc s _. apply ovi_step_with_self_loop. }
  unfold optimal_value_iteration. change (init_tables M') with (init_tables M).
  destruct (init_tables M) as [V Q]. revert V Q. generalize 0 as iteration.
  generalize max_iterations at 2 4 as remaining.
  induction remaining as [|r IH]; intros iteration V Q; simpl; [done|].
  rewrite Hsweep. destruct (ovi_sweep M gamma V Q) as [[V' Q'] md].
  destruct (n_ltb md theta); [done | apply IH].
Qed.

Lemma occ_step_with_self_loop policy gamma acc item :
  occ_step M' policy gamma acc item = occ_step M policy gamma acc item.
Proof using Hempty.
  unfold occ_step. destruct acc as [[occ mc] next], item as [s sp]. simpl.
  destruct (n_leb sp n_zero || is_terminal_state M s); [done|].
  f_equal. apply foldM_ext. intros next' [a ap].
  by rewrite resolve_with_self_loop.
Qed.

Lemma compute_occupancy_measure_with_self_loop policy gamma theta max_iterations :
  compute_occupancy_measure M' policy gamma theta max_iterations
  = compute_occupancy_measure M policy gamma theta max_iterations.
Proof using Hempty.
  assert (Hiter : ∀ cur occ, occ_iteration M' policy gamma cur occ
                             = occ_iteration M policy gamma cur occ).
  { intros cur occ. unfold occ_iteration.
    change (zero_distribution M') with (zero_distribution M).
    apply foldM_ext. apply occ_step_with_self_loop. }
  unfold compute_occupancy_measure. simpl.
  change (init_values M') with (init_values M).
  change (initial_distribution M') with (initial_distribution M).
  destruct (start_states M) as [|s1 starts]; [done|].
  f_equal.
  generalize (init_values M) as occ. generalize (initial_distribution M) as cur.
  generalize 0 as iteration. generalize max_iterations at 2 4 as remaining.
  induction remaining as [|r IH]; intros iteration cur occ; simpl; [done|].
  rewrite Hiter. destruct (occ_iteration M policy gamma cur occ) as [[[occ' mc] next]|e];
    simpl; [|done].
  destruct (n_ltb mc theta); [done | apply IH].
Qed.

End SelfLoop.

(** C3. For each of [policy_evaluation], [optimal_value_iteration] and
    [compute_occupancy_measure], a model whose
    [get_transition_probabilities(s, a)] is empty gives exactly the results
    (tables and diagnostics) of the otherwise identical model whose pair
    [(s, a)] has the explicit self-loop [{s: 1.0}].  It holds for every
    state [s], the non-terminal ones among them. *)
Theorem empty_distribution_is_self_loop {state : Type} `{Countable state}
    {num : Type} `{Num num} `{TableDefaults num}
    (M : MDPNetwork state num) (policy : PolicyTable state num)
    (gamma theta : num) (max_iterations : nat) (s : state) (a : nat) :
  get_transition_probabilities M s a = [] →
  policy_evaluation (with_self_loop M s a) policy gamma theta max_iterations
  = policy_evaluation M policy gamma theta max_iterations
  ∧ optimal_value_iteration (with_self_loop M s a) gamma theta max_iterations
    = optimal_value_iteration M gamma theta max_iterations
  ∧ compute_occupancy_measure (with_self_loop M s a) policy gamma theta max_iterations
    = compute_occupancy_measure M policy gamma theta max_iterations.
Proof.
  intros Hempty. split; [|split].
  - by apply policy_evaluation_with_self_loop.
  - by apply optimal_value_iteration_with_self_loop.
  - by apply compute_occupancy_measure_with_self_loop.
Qed.

(** ** The sweep of [policy_evaluation] updates in place *)

Section InPlace.

Context {state : Type} `{Countable state}.
Context {num : Type} `{Num num} `{TableDefaults num}.
Context (M : MDPNetwork state num) (policy : PolicyTable state num) (gamma : num).

(** Passes for states other than [s] leave the entry of [s] alone. *)
Lemma pe_steps_other (l : list state) (acc : gmap state num * num) (s : state) :
  s ∉ l →
  get_value (fold_left (pe_step M policy gamma) l acc).1 s = get_value acc.1 s.
Proof.
  intros Hnotin.
  apply (fold_left_keeps (λ acc', get_value acc'.1 s = get_value acc.1 s)); [|done].
  intros [V md] s' Hs' HV. rewrite pe_step_other; [done|].
  intros ->. done.
Qed.

(** C5, as the code has it.  In a sweep of [policy_evaluation] the new value
    of a non-terminal state [s] is computed from the table as it stands when
    the sweep reaches [s]: the entries of the states visited earlier in the
    sweep ([before]) already hold what the sweep wrote for them, and every
    other entry still holds its value of the start of the sweep. *)
Theorem pe_sweep_in_place (V : gmap state num) (before after : list state) (s : state) :
  states M = before ++ s :: after →
  s ∉ after →
  is_terminal_state M s = false →
  let V_reached := (fold_left (pe_step M policy gamma) before (V, n_zero)).1 in
  get_value (pe_sweep M policy gamma V).1 s = pe_new_value M policy gamma V_reached s
  ∧ ∀ s', s' ∉ before → get_value V_reached s' = get_value V s'.
Proof.
  intros Hstates Hafter Hterm V_reached. split.
  - unfold pe_sweep. rewrite Hstates, fold_left_app. simpl.
    rewrite pe_steps_other by done. subst V_reached.
    destruct (fold_left (pe_step M policy gamma) before (V, n_zero)) as [V1 md1].
    unfold pe_step. rewrite Hterm. simpl. apply get_set_value.
  - intros s' Hs'. subst V_reached. by rewrite pe_steps_other.
Qed.

End InPlace.

(** ** compute_occupancy_measure *)

Section Occupancy.

Context {state : Type} `{Countable state}.
Context {num : Type} `{Num num} `{TableDefaults num}.
Context (M : MDPNetwork state num) (policy : PolicyTable state num).
Implicit Types (d next current : list (state * num)) (occ : gmap state num).
Implicit Types (s : state) (gamma theta : num).

Lemma dict_get_set d s s' (v : num) :
  dict_get (dict_set d s v) s' = if decide (s' = s) then Some v else dict_get d s'.
Proof.
  induction d as [|[k w] d IH]; simpl.
  - by destruct (decide (s' = s)).
  - destruct (decide (s = k)) as [->|Hsk]; simpl.
    + by destruct (decide (s' = k)).
    + rewrite IH. destruct (decide (s' = k)) as [->|Hk]; [|done].
      by rewrite decide_False by done.
Qed.

(** C8. Without start states [compute_occupancy_measure] returns at once:
    the result is the table that maps every state of the model to 0,
    together with the warning as the only diagnostic, whatever
    [max_iterations] is; it does not raise. *)
Theorem no_start_states_all_zero gamma theta max_iterations :
  start_states M = [] →
  compute_occupancy_measure M policy gamma theta max_iterations
  = Ok (init_values M, [OccNoStartStates])
  ∧ ∀ s, s ∈ states M → get_value (init_values M) s = n_zero.
Proof.
  intros Hstart. split.
  - unfold compute_occupancy_measure. by rewrite Hstart.
  - intros s Hs. by apply init_values_zero.
Qed.

(** The distribution an iteration starts to fill holds 0 everywhere. *)
Lemma zero_distribution_zero s p :
  dict_get (zero_distribution M) s = Some p → p = n_zero.
Proof.
  unfold zero_distribution.
  apply (fold_left_keeps (λ d, dict_get d s = Some p → p = n_zero)); [|done].
  intros d s' _ Hd. rewrite dict_get_set.
  destruct (decide (s = s')); [by intros [= <-] | done].
Qed.

(** Propagation writes the entries of non-terminal states only. *)
Lemma occ_propagate_terminal gamma state_prob action_prob tps next next' s :
  is_terminal_state M s = true →
  occ_propagate M gamma state_prob action_prob tps next = Ok next' →
  dict_get next' s = dict_get next s.
Proof.
  intros Hterm. unfold occ_propagate.
  apply (foldM_keeps (λ d, dict_get d s = dict_get next s)); [|done].
  intros d [ns tp] d' _ Hd.
  destruct (is_terminal_state M ns) eqn:Hns; [by intros [= <-]|].
  destruct (dict_get d ns) as [p|]; [|done]. intros [= <-].
  rewrite dict_get_set. rewrite decide_False; [done|]. intros ->. congruence.
Qed.

Lemma occ_step_terminal gamma occ max_change next item occ' max_change' next' s :
  is_terminal_state M s = true →
  occ_step M policy gamma (occ, max_change, next) item = Ok (occ', max_change', next') →
  dict_get next' s = dict_get next s.
Proof.
  intros Hterm. unfold occ_step. destruct item as [s1 sp].
  destruct (n_leb sp n_zero || is_terminal_state M s1); [by intros [= _ _ <-]|].
  match goal with
  | |- context [foldM ?f ?l next] => destruct (foldM f l next) as [d|e] eqn:Hfold
  end; simpl; [|done].
  intros [= _ _ <-]. revert Hfold.
  apply (foldM_keeps (λ d, dict_get d s = dict_get next s)); [|done].
  intros d0 [a ap] d1 _ Hd0. destruct (n_leb ap n_zero); [by intros [= <-]|].
  intros Hprop. by rewrite (occ_propagate_terminal _ _ _ _ _ _ _ Hterm Hprop).
Qed.

(** No iteration hands mass to a terminal state. *)
Lemma occ_iteration_terminal gamma current occ occ' max_change next s p :
  is_terminal_state M s = true →
  occ_iteration M policy gamma current occ = Ok (occ', max_change, next) →
  dict_get next s = Some p → p = n_zero.
Proof.
  intros Hterm Hiter. unfold occ_iteration in Hiter.
  assert (Hsame : dict_get next s = dict_get (zero_distribution M) s).
  { revert Hiter.
    apply (foldM_keeps (λ acc : gmap state num * num * list (state * num),
                          dict_get acc.2 s = dict_get (zero_distribution M) s)); [|done].
    intros [[occ1 mc1] next1] item [[occ2 mc2] next2] _ Hacc Hstep. simpl in *.
    by rewrite (occ_step_terminal _ _ _ _ _ _ _ _ _ Hterm Hstep). }
  rewrite Hsame. apply zero_distribution_zero.
Qed.

(** The closing loop zeroes the terminal states. *)
Lemma occ_cleanup_terminal occ s :
  s ∈ states M → is_terminal_state M s = true →
  get_value (occ_cleanup M occ) s = n_zero.
Proof.
  intros Hs Hterm. unfold occ_cleanup.
  apply (fold_left_sets (λ occ', get_value occ' s = n_zero)) with (b := s); [done|..].
  - intros occ'. rewrite Hterm. apply get_set_value.
  - intros occ' s' Hocc'. destruct (is_terminal_state M s') eqn:Hs'; [|done].
    destruct (decide (s' = s)) as [->|Hne]; [apply get_set_value|].
    by rewrite get_set_value_ne.
Qed.

(** C9. Whatever the model, the policy and the parameters, the table
    [compute_occupancy_measure] returns maps every terminal state of the
    model to 0, and the distribution an iteration hands to the next one
    holds no mass at a terminal state. *)
Theorem terminal_occupancy_is_zero gamma theta max_iterations occ out s :
  compute_occupancy_measure M policy gamma theta max_iterations = Ok (occ, out) →
  s ∈ states M →
  is_terminal_state M s = true →
  get_value occ s = n_zero
  ∧ ∀ current occ0 occ1 max_change next p,
      occ_iteration M policy gamma current occ0 = Ok (occ1, max_change, next) →
      dict_get next s = Some p → p = n_zero.
Proof.
  intros Hrun Hs Hterm. split.
  - unfold compute_occupancy_measure in Hrun.
    destruct (start_states M) as [|s1 starts].
    + injection Hrun as <- _. by apply init_values_zero.
    + destruct (occ_loop M policy gamma theta max_iterations max_iterations 0
                         (initial_distribution M) (init_values M))
        as [[occ' out']|e]; simpl in Hrun; [|done].
      injection Hrun as <- _. by apply occ_cleanup_terminal.
  - intros current occ0 occ1 max_change next p Hiter.
    by apply (occ_iteration_terminal _ _ _ _ _ _ _ _ Hterm Hiter).
Qed.

(** *** On a closed model the solver returns *)

Lemma dict_get_item d s (p : num) : (s, p) ∈ d → is_Some (dict_get d s).
Proof.
  induction d as [|[k w] d IH]; intros Hin; [by apply elem_of_nil in Hin|].
  simpl. destruct (decide (s = k)); [eauto|].
  apply elem_of_cons in Hin as [[= -> _] | Hin]; [done | by apply IH].
Qed.

Lemma zero_distribution_spans : spans M (zero_distribution M).
Proof.
  intros s. unfold zero_distribution. split.
  - revert s.
    apply (fold_left_keeps (λ d, ∀ s, is_Some (dict_get d s) → s ∈ states M)).
    + intros d s' Hs' Hd s. rewrite dict_get_set.
      destruct (decide (s = s')) as [->|]; [done | apply Hd].
    + intros s [p Hp]. done.
  - intros Hs.
    apply (fold_left_sets (λ d, is_Some (dict_get d s))) with (b := s); [done|..].
    + intros d. rewrite dict_get_set, decide_True by done. eauto.
    + intros d s' Hd. rewrite dict_get_set. destruct (decide (s = s')); eauto.
Qed.

Lemma initial_distribution_items s p :
  (s, p) ∈ initial_distribution M → s ∈ start_states M.
Proof.
  intros Hin. apply dict_get_item in Hin. revert Hin. unfold initial_distribution.
  apply (fold_left_keeps (λ d, is_Some (dict_get d s) → s ∈ start_states M)).
  - intros d s' Hs' Hd. rewrite dict_get_set.
    destruct (decide (s = s')) as [->|]; [done | apply Hd].
  - intros [p' Hp']. done.
Qed.

Lemma occ_propagate_returns gamma state_prob action_prob tps next :
  (∀ ns tp, (ns, tp) ∈ tps → ns ∈ states M) →
  spans M next →
  ∃ next', occ_propagate M gamma state_prob action_prob tps next = Ok next'
           ∧ spans M next'.
Proof.
  intros Htps. unfold occ_propagate. apply foldM_returns.
  intros d [ns tp] Hin Hd. destruct (is_terminal_state M ns); [eauto|].
  destruct (proj2 (Hd ns) (Htps ns tp Hin)) as [p ->].
  eexists. split; [done|]. intros s. rewrite dict_get_set.
  destruct (decide (s = ns)) as [->|]; [|apply Hd].
  split; [intros _; by eapply Htps | eauto].
Qed.

Lemma occ_step_returns gamma occ max_change next s state_prob :
  closed_model M →
  s ∈ states M →
  spans M next →
  ∃ occ' max_change' next',
    occ_step M policy gamma (occ, max_change, next) (s, state_prob)
    = Ok (occ', max_change', next')
    ∧ spans M next'.
Proof.
  intros [_ Hclosed] Hs Hnext. unfold occ_step.
  destruct (n_leb state_prob n_zero || is_terminal_state M s); [eauto 6|].
  match goal with
  | |- context [foldM ?f ?l next] =>
      destruct (foldM_returns (spans M) f l next) as (next' & -> & Hnext')
  end; [|done|simpl; eauto 6].
  intros d [a ap] _ Hd. destruct (n_leb ap n_zero); [eauto|].
  apply occ_propagate_returns; [|done].
  intros ns tp Hin. by eapply Hclosed.
Qed.

Lemma occ_iteration_returns gamma current occ :
  closed_model M →
  (∀ s p, (s, p) ∈ current → s ∈ states M) →
  ∃ occ' max_change next,
    occ_iteration M policy gamma current occ = Ok (occ', max_change, next)
    ∧ spans M next.
Proof.
  intros Hclosed Hcurrent. unfold occ_iteration.
  destruct (foldM_returns (λ acc : gmap state num * num * list (state * num), spans M acc.2)
              (occ_step M policy gamma) current (occ, n_zero, zero_distribution M))
    as ([[occ' mc] next] & Hrun & Hspans).
  - intros [[occ1 mc1] next1] [s p] Hin Hacc. simpl in Hacc.
    destruct (occ_step_returns gamma occ1 mc1 next1 s p Hclosed
                (Hcurrent s p Hin) Hacc) as (occ2 & mc2 & next2 & -> & Hnext2).
    eauto.
  - apply zero_distribution_spans.
  - eauto 6.
Qed.

Lemma occ_loop_returns gamma theta max_iterations remaining iteration current occ :
  closed_model M →
  (∀ s p, (s, p) ∈ current → s ∈ states M) →
  ∃ r, occ_loop M policy gamma theta max_iterations remaining iteration current occ
       = Ok r.
Proof.
  intros Hclosed. revert iteration current occ.
  induction remaining as [|r IH]; intros iteration current occ Hcurrent; simpl; [eauto|].
  destruct (occ_iteration_returns gamma current occ Hclosed Hcurrent)
    as (occ' & mc & next & -> & Hnext). simpl.
  destruct (n_ltb mc theta); [eauto|].
  apply IH. intros s p Hin. apply Hnext. by eapply dict_get_item.
Qed.

(** When the start states and the next states of the model are among its
    states, no dictionary access fails and a table comes back. *)
Lemma compute_occupancy_measure_returns gamma theta max_iterations :
  closed_model M →
  ∃ occ out,
    compute_occupancy_measure M policy gamma theta max_iterations = Ok (occ, out).
Proof.
  intros Hclosed. unfold compute_occupancy_measure.
  destruct (start_states M) as [|s1 starts] eqn:Hstart; [eauto|].
  destruct (occ_loop_returns gamma theta max_iterations max_iterations 0
              (initial_distribution M) (init_values M) Hclosed)
    as [[occ out] Hloop].
  - intros s p Hin. apply Hclosed. by eapply initial_distribution_items.
  - rewrite Hloop. simpl. eauto.
Qed.

End Occupancy.

(** ** q_learning *)

Section QLearningProperties.

Context {state : Type} `{Countable state}.
Context {num : Type} `{Num num} `{TableDefaults num}.
Context {rng : Type} (seeded_rng : Z → rng).
Context (rng_random : rng → num * rng) (rng_integers : nat → nat → rng → nat * rng).
Context (get_best_action : gmap (state * nat) num → state → nat * num).
Context (M : MDPNetwork state num) (smp : Sampling state rng).
Context (alpha gamma epsilon : num).

#[local] Abbreviation run := (q_learning seeded_rng rng_random rng_integers
                                get_best_action M smp alpha gamma epsilon).

(** With a seed that is not [None], [q_learning] does not read the entropy
    of the operating system: the function gives the same result whatever
    entropy it is offered. *)
Theorem q_learning_same_seed (num_episodes max_steps_per_episode : nat)
    (seed : option Z) (os_entropy1 os_entropy2 : rng) :
  seed ≠ None →
  run num_episodes max_steps_per_episode seed os_entropy1
  = run num_episodes max_steps_per_episode seed os_entropy2.
Proof.
  intros Hseed. destruct seed as [z|]; [|done].
  unfold q_learning. simpl. reflexivity.
Qed.

(** The progress test divides by [num_episodes // 10]. *)
Lemma ql_progress_small num_episodes episode :
  num_episodes < 10 → ql_progress num_episodes episode = Raise ZeroDivisionError.
Proof.
  intros Hsmall. unfold ql_progress. by rewrite Nat.div_small.
Qed.

Lemma ql_progress_large num_episodes episode :
  10 ≤ num_episodes → ∃ printed, ql_progress num_episodes episode = Ok printed.
Proof.
  intros Hlarge. unfold ql_progress.
  assert (Hdiv : num_episodes / 10 ≠ 0).
  { intros Hz. apply Nat.div_small_iff in Hz; lia. }
  apply Nat.eqb_neq in Hdiv. rewrite Hdiv.
  destruct ((episode + 1) mod (num_episodes / 10) =? 0); eauto.
Qed.

(** C6, where the code departs from it.  With 1 to 9 episodes the first
    episode ends in the progress test, whose divisor [num_episodes // 10] is
    0: [q_learning] raises [ZeroDivisionError] and returns no table. *)
Theorem q_learning_few_episodes_raises (num_episodes max_steps_per_episode : nat)
    (seed : option Z) (os_entropy : rng) :
  1 ≤ num_episodes < 10 →
  run num_episodes max_steps_per_episode seed os_entropy = Raise ZeroDivisionError.
Proof.
  intros [Hpos Hsmall]. unfold q_learning.
  destruct (init_tables M) as [V Q].
  destruct num_episodes as [|n]; [lia|]. simpl.
  destruct (sample_start_state smp (default_rng seeded_rng seed os_entropy))
    as [s0 g0].
  destruct (ql_steps rng_random rng_integers get_best_action M smp
                     alpha gamma epsilon max_steps_per_episode s0 g0 Q) as [g1 Q1].
  by rewrite ql_progress_small.
Qed.

(** From 10 episodes on, and with none, the loop runs to its end. *)
Lemma ql_episodes_returns num_episodes max_steps_per_episode remaining episode g Q out :
  10 ≤ num_episodes →
  ∃ r, ql_episodes rng_random rng_integers get_best_action M smp
                   alpha gamma epsilon num_episodes max_steps_per_episode
                   remaining episode g Q out = Ok r.
Proof.
  intros Hlarge. revert episode g Q out.
  induction remaining as [|r IH]; intros episode g Q out; simpl; [eauto|].
  destruct (sample_start_state smp g) as [s0 g0].
  destruct (ql_steps rng_random rng_integers get_best_action M smp
                     alpha gamma epsilon max_steps_per_episode s0 g0 Q) as [g1 Q1].
  destruct (ql_progress_large num_episodes episode Hlarge) as [printed ->]. simpl.
  apply IH.
Qed.

Lemma q_learning_returns (num_episodes max_steps_per_episode : nat)
    (seed : option Z) (os_entropy : rng) :
  num_episodes = 0 ∨ 10 ≤ num_episodes →
  ∃ r, run num_episodes max_steps_per_episode seed os_entropy = Ok r.
Proof.
  intros Hn. unfold q_learning. destruct (init_tables M) as [V Q].
  destruct Hn as [-> | Hlarge]; [simpl; eauto|].
  destruct (ql_episodes_returns num_episodes max_steps_per_episode num_episodes 0
              (default_rng seeded_rng seed os_entropy) Q [] Hlarge)
    as [[Q' out] ->].
  simpl. eauto.
Qed.

End QLearningProperties.

(** ** A zero discount, on exact rationals *)

Section ZeroDiscount.

Context {state : Type} `{Countable state} `{TableDefaults Qc}.
Context (M : MDPNetwork state Qc).

Lemma Qc_ltb_lt (x y : Qc) : Qc_ltb x y = true ↔ (x < y)%Qc.
Proof.
  unfold Qc_ltb, Qclt. change (x ?= y)%Qc with (x ?= y)%Q.
  rewrite Qlt_alt. destruct (x ?= y)%Q; split; congruence.
Qed.

Lemma py_max_l (x y : Qc) : (x <= py_max x y)%Qc.
Proof.
  unfold py_max. simpl. destruct (Qc_ltb x y) eqn:Hlt.
  - apply Qclt_le_weak. by apply Qc_ltb_lt.
  - apply Qcle_refl.
Qed.





(** With [gamma = 0] the backup of an action forgets the value table. *)
Lemma backup_sum_zero_discount (V : gmap state Qc) (s : state) (a : nat) :
  backup_sum M 0%Qc V s a = one_step_reward M s a.
Proof.
  unfold backup_sum, one_step_reward. apply fold_left_ext_in.
  intros acc [next_state prob] _. simpl.
  by rewrite Qcmult_0_l, Qcplus_0_r.
Qed.


End ZeroDiscount.

(** ** The solvers on the concrete models *)

Section Scenarios.

#[local] Existing Instance zero_unset.

(** Two floats that a comparison with [bound] tells apart are different. *)
Ltac float_differ bound H :=
  apply (f_equal (λ x, PrimFloat.ltb x bound)) in H; vm_compute in H; discriminate H.

(** C1, as the specification has it, fails on the chain: the value of [A]
    and [Q(A, 0)] are not 0.9. *)
Lemma chain_values_not_as_specified :
  ¬ (get_value Chain.solved.1.1 "B" = 0%float
     ∧ get_value Chain.solved.1.1 "A" = 0.9%float
     ∧ get_q_value Chain.solved.1.2 "A" 0 = 0.9%float).
Proof.
  intros (_ & HA & _). vm_compute in HA. float_differ 1%float HA.
Qed.

(** C1, as the code has it.  On the chain [A -> B] with [B] terminal,
    [reward(A) = 0], [reward(B) = 1], one action and [gamma = 0.9],
    [optimal_value_iteration] with its default [theta] and [max_iterations]
    returns [value(B) = 0], [value(A) = 1.0] and [Q(A, 0) = 1.0]: the reward
    of [B] is earned on arrival and is not discounted.  It reports
    convergence after 2 sweeps. *)
Theorem chain_values :
  get_value Chain.solved.1.1 "B" = 0%float
  ∧ get_value Chain.solved.1.1 "A" = 1%float
  ∧ get_q_value Chain.solved.1.2 "A" 0 = 1%float
  ∧ Chain.solved.2 = [OVIConverged 2].
Proof. vm_compute. done. Qed.

(** C5, as the specification has it, fails on the relay: the sweep of
    [policy_evaluation] is not the synchronous sweep.  Swept in the order
    [B, A, C], the backup of [A] reads the value just written for [B]. *)
Lemma relay_sweep_is_not_jacobi :
  pe_sweep Relay.mdp Relay.policy Relay.gamma (init_values Relay.mdp)
  ≠ pe_jacobi_sweep Relay.mdp Relay.policy Relay.gamma (init_values Relay.mdp).
Proof.
  intros Heq. apply (f_equal (λ r, get_value r.1 "A")) in Heq.
  vm_compute in Heq. float_differ 0.5%float Heq.
Qed.

Lemma terminal_states_are_zero_witness :
  "B" ∈ states Chain.mdp
  ∧ is_terminal_state Chain.mdp "B" = true
  ∧ get_value (policy_evaluation Chain.mdp Chain.policy Chain.gamma Chain.theta
                                 Chain.max_iterations).1 "B" = 0%float
  ∧ get_value (optimal_value_iteration Chain.mdp Chain.gamma Chain.theta
                                       Chain.max_iterations).1.1 "B" = 0%float
  ∧ ∀ a, a < 1 →
      get_q_value (optimal_value_iteration Chain.mdp Chain.gamma Chain.theta
                                           Chain.max_iterations).1.2 "B" a = 0%float.
Proof.
  assert (Hin : "B" ∈ states Chain.mdp) by (right; left).
  split; [exact Hin|]. split; [reflexivity|].
  exact (terminal_states_are_zero Chain.mdp Chain.policy Chain.gamma Chain.theta
           Chain.max_iterations "B" Hin eq_refl).
Defined.

Lemma empty_distribution_is_self_loop_witness :
  get_transition_probabilities Fork.mdp "T" 1 = []
  ∧ policy_evaluation (with_self_loop Fork.mdp "T" 1) Fork.policy Fork.gamma Fork.theta 50
    = policy_evaluation Fork.mdp Fork.policy Fork.gamma Fork.theta 50
  ∧ optimal_value_iteration (with_self_loop Fork.mdp "T" 1) Fork.gamma Fork.theta 50
    = optimal_value_iteration Fork.mdp Fork.gamma Fork.theta 50
  ∧ compute_occupancy_measure (with_self_loop Fork.mdp "T" 1) Fork.policy Fork.gamma
                              Fork.theta 50
    = compute_occupancy_measure Fork.mdp Fork.policy Fork.gamma Fork.theta 50.
Proof.
  split; [reflexivity|].
  exact (empty_distribution_is_self_loop Fork.mdp Fork.policy Fork.gamma Fork.theta 50
           "T" 1 eq_refl).
Defined.

Lemma pe_sweep_in_place_witness :
  states Relay.mdp = ["B"] ++ "A" :: ["C"]
  ∧ ("A" ∉ ["C"])
  ∧ is_terminal_state Relay.mdp "A" = false
  ∧ let V := init_values Relay.mdp in
    let V_reached :=
      (fold_left (pe_step Relay.mdp Relay.policy Relay.gamma) ["B"] (V, 0%float)).1 in
    get_value (pe_sweep Relay.mdp Relay.policy Relay.gamma V).1 "A"
    = pe_new_value Relay.mdp Relay.policy Relay.gamma V_reached "A"
    ∧ ∀ s', s' ∉ ["B"] → get_value V_reached s' = get_value V s'.
Proof.
  assert (Hnotin : "A" ∉ ["C"]).
  { intros Hin. apply list_elem_of_In in Hin. simpl in Hin.
    destruct Hin as [Heq | []]. discriminate Heq. }
  split; [reflexivity|]. split; [exact Hnotin|]. split; [reflexivity|].
  exact (pe_sweep_in_place Relay.mdp Relay.policy Relay.gamma
           (init_values Relay.mdp) ["B"] ["C"] "A" eq_refl Hnotin eq_refl).
Defined.

Lemma q_learning_few_episodes_raises_witness :
  1 ≤ 5 < 10 ∧ Pick.learn 5 (Some 7%Z) 0 = Raise ZeroDivisionError.
Proof.
  assert (Hfew : 1 ≤ 5 < 10) by lia.
  split; [exact Hfew|].
  exact (q_learning_few_episodes_raises Pick.seeded_rng Pick.rng_random
           Pick.rng_integers (first_best_action 2) Pick.mdp Pick.sampling
           0.1%float 0.9%float 0.1%float 5 1000 (Some 7%Z) 0 Hfew).
Defined.

Lemma q_learning_same_seed_witness :
  Some 7%Z ≠ None ∧ Pick.learn 20 (Some 7%Z) 0 = Pick.learn 20 (Some 7%Z) 1.
Proof.
  assert (Hseed : Some 7%Z ≠ None) by discriminate.
  split; [exact Hseed|].
  exact (q_learning_same_seed Pick.seeded_rng Pick.rng_random
           Pick.rng_integers (first_best_action 2) Pick.mdp Pick.sampling
           0.1%float 0.9%float 0.1%float 20 1000 (Some 7%Z) 0 1 Hseed).
Defined.

(** Without a seed the entropy decides: two runs may learn different
    tables. *)
Lemma unseeded_runs_may_differ : Pick.learn 20 None 0 ≠ Pick.learn 20 None 1.
Proof.
  intros Heq.
  apply (f_equal (λ r, match r with
                       | Ok (Q, _, _) => get_q_value Q "S" 0
                       | Raise _ => 0%float
                       end)) in Heq.
  vm_compute in Heq. float_differ 0.05%float Heq.
Qed.


Lemma no_start_states_all_zero_witness :
  start_states Fork.without_start = []
  ∧ compute_occupancy_measure Fork.without_start Fork.policy Fork.gamma Fork.theta 50
    = Ok (init_values Fork.without_start, [OccNoStartStates])
  ∧ ∀ s, s ∈ states Fork.without_start →
         get_value (init_values Fork.without_start) s = 0%Qc.
Proof.
  split; [reflexivity|].
  exact (no_start_states_all_zero Fork.without_start Fork.policy Fork.gamma
           Fork.theta 50 eq_refl).
Defined.

Lemma terminal_occupancy_is_zero_witness :
  ∃ occ out,
    compute_occupancy_measure Chain.mdp Chain.policy Chain.gamma Chain.theta
                              Chain.max_iterations = Ok (occ, out)
    ∧ "B" ∈ states Chain.mdp
    ∧ is_terminal_state Chain.mdp "B" = true
    ∧ get_value occ "B" = 0%float.
Proof.
  assert (Hin : "B" ∈ states Chain.mdp) by (right; left).
  eexists _, _. split; [vm_compute; reflexivity|].
  split; [exact Hin|]. split; [reflexivity|].
  refine (proj1 (terminal_occupancy_is_zero Chain.mdp Chain.policy Chain.gamma
                   Chain.theta Chain.max_iterations _ _ "B" _ Hin eq_refl)).
  vm_compute. reflexivity.
Defined.

Lemma idle_state_is_zero_witness :
  "S" ∈ states Fork.mdp
  ∧ is_terminal_state Fork.mdp "S" = false
  ∧ (∀ a p, (a, p) ∈ get_action_probabilities Fork.idle_policy "S" →
            n_leb p n_zero = true)
  ∧ get_value (policy_evaluation Fork.mdp Fork.idle_policy Fork.gamma Fork.theta 50).1 "S"
    = 0%Qc.
Proof.
  assert (Hin : "S" ∈ states Fork.mdp) by left.
  assert (Hidle : ∀ a p, (a, p) ∈ get_action_probabilities Fork.idle_policy "S" →
                         n_leb p n_zero = true).
  { intros a p Hap. apply list_elem_of_In in Hap. simpl in Hap.
    destruct Hap as [[= <- <-] | [[= <- <-] | []]]; reflexivity. }
  split; [exact Hin|]. split; [reflexivity|]. split; [exact Hidle|].
  exact (proj2 (idle_state_is_zero Fork.mdp Fork.idle_policy Fork.gamma Fork.theta 50
                  "S" Hin eq_refl Hidle)).
Defined.

End Scenarios.

(** * Further properties of the solvers *)

(** ** What the value solvers report and what their tables hold *)

Section ValueSolverTables.

Context {state : Type} `{Countable state}.
Context {num : Type} `{Num num} `{TableDefaults num}.
Context (M : MDPNetwork state num).
Implicit Types (V : gmap state num) (Q : gmap (state * nat) num).
Implicit Types (s : state) (a : nat) (gamma theta : num).

Lemma pe_loop_diagnostic policy gamma theta max_iterations remaining iteration V :
  (pe_loop M policy gamma theta max_iterations remaining iteration V).2
  = [PEMaxIterations max_iterations]
  ∨ ∃ k, iteration < k ≤ iteration + remaining
         ∧ (pe_loop M policy gamma theta max_iterations remaining iteration V).2
           = [PEConverged k].
Proof.
  revert iteration V. induction remaining as [|r IH]; intros iteration V; simpl; [by left|].
  destruct (pe_sweep M policy gamma V) as [V' md].
  destruct (n_ltb md theta).
  - right. exists (iteration + 1). split; [lia | done].
  - destruct (IH (S iteration) V') as [Hmax | (k & Hk & Hconv)]; [by left|].
    right. exists k. split; [lia | done].
Qed.

Lemma ovi_loop_diagnostic gamma theta max_iterations remaining iteration V Q :
  (ovi_loop M gamma theta max_iterations remaining iteration V Q).2
  = [OVIMaxIterations max_iterations]
  ∨ ∃ k, iteration < k ≤ iteration + remaining
         ∧ (ovi_loop M gamma theta max_iterations remaining iteration V Q).2
           = [OVIConverged k].
Proof.
  revert iteration V Q.
  induction remaining as [|r IH]; intros iteration V Q; simpl; [by left|].
  destruct (ovi_sweep M gamma V Q) as [[V' Q'] md].
  destruct (n_ltb md theta).
  - right. exists (iteration + 1). split; [lia | done].
  - destruct (IH (S iteration) V' Q') as [Hmax | (k & Hk & Hconv)]; [by left|].
    right. exists k. split; [lia | done].
Qed.

(** Each value solver prints one line: either that it reached
    [max_iterations], or that it converged after [k] sweeps, with
    [1 <= k <= max_iterations]. *)
Theorem value_solvers_print_one_line policy gamma theta max_iterations :
  ((policy_evaluation M policy gamma theta max_iterations).2
   = [PEMaxIterations max_iterations]
   ∨ ∃ k, 1 ≤ k ≤ max_iterations
          ∧ (policy_evaluation M policy gamma theta max_iterations).2 = [PEConverged k])
  ∧ ((optimal_value_iteration M gamma theta max_iterations).2
     = [OVIMaxIterations max_iterations]
     ∨ ∃ k, 1 ≤ k ≤ max_iterations
            ∧ (optimal_value_iteration M gamma theta max_iterations).2 = [OVIConverged k]).
Proof.
  split.
  - unfold policy_evaluation.
    destruct (pe_loop_diagnostic policy gamma theta max_iterations max_iterations 0
                (init_values M)) as [Hmax | (k & Hk & Hconv)]; [by left|].
    right. exists k. split; [lia | done].
  - unfold optimal_value_iteration. destruct (init_tables M) as [V Q].
    destruct (ovi_loop_diagnostic gamma theta max_iterations max_iterations 0 V Q)
      as [Hmax | (k & Hk & Hconv)]; [by left|].
    right. exists k. split; [lia | done].
Qed.

(** The action loop stores the backup of every action of the model. *)
Lemma ovi_actions_row gamma V s Q a :
  a < num_actions M →
  get_q_value (ovi_actions M gamma V s Q).1 s a = backup_sum M gamma V s a.
Proof.
  intros Ha. unfold ovi_actions.
  apply (fold_left_sets (λ acc : gmap (state * nat) num * list num,
                           get_q_value acc.1 s a = backup_sum M gamma V s a))
    with (b := a).
  - apply elem_of_seq. lia.
  - intros [Q' avs]. simpl. apply get_set_q_value.
  - intros [Q' avs] a' HQ'. simpl in *. destruct (decide (a' = a)) as [->|Hne].
    + apply get_set_q_value.
    + rewrite get_set_q_value_ne; [done | congruence].
Qed.

Lemma py_max_list_zeros (l : list nat) :
  py_max_list (map (λ _, n_zero) l) = (n_zero : num).
Proof.
  destruct l as [|a l]; [done|]. simpl.
  induction l as [|b l IH]; simpl; [done|].
  unfold py_max at 2. by destruct (n_ltb n_zero n_zero).
Qed.

Lemma map_row_eq (f g : nat → num) (n : nat) :
  (∀ a, a < n → f a = g a) → map f (seq 0 n) = map g (seq 0 n).
Proof.
  intros Hfg. apply map_ext_in. intros a Ha. apply Hfg.
  apply in_seq in Ha. lia.
Qed.

(** In the tables [optimal_value_iteration] returns, the value of every
    state of the model is Python's [max] of its row of Q-values (0 for a
    model without actions), whether the run converged or not. *)
Theorem value_is_row_maximum gamma theta max_iterations s :
  s ∈ states M →
  get_value (optimal_value_iteration M gamma theta max_iterations).1.1 s
  = py_max_list
      (map (get_q_value (optimal_value_iteration M gamma theta max_iterations).1.2 s)
           (seq 0 (num_actions M))).
Proof.
  intros Hs.
  apply (optimal_value_iteration_keeps M
    (λ VQ, get_value VQ.1 s
           = py_max_list (map (get_q_value VQ.2 s) (seq 0 (num_actions M))))).
  - intros V' Q' md s' _ HVQ. cbv beta. simpl in HVQ.
    destruct (decide (s' = s)) as [->|Hne].
    + destruct (is_terminal_state M s) eqn:Hterm.
      * unfold ovi_step. rewrite Hterm. simpl. rewrite get_set_value.
        rewrite (map_row_eq _ (λ _, n_zero)); [by rewrite py_max_list_zeros|].
        intros a Ha. by apply zero_q_row_same.
      * rewrite ovi_step_value by done. f_equal. apply map_row_eq.
        intros a Ha. unfold ovi_step. rewrite Hterm.
        pose proof (ovi_actions_row gamma V' s Q' a Ha) as Hrow.
        destruct (ovi_actions M gamma V' s Q') as [Q'' avs]. done.
    + rewrite ovi_step_other by done. rewrite HVQ. f_equal. apply map_row_eq.
      intros a _. by rewrite ovi_step_other_q.
  - simpl. rewrite init_tables_values, init_values_zero by done.
    rewrite (map_row_eq _ (λ _, n_zero)); [by rewrite py_max_list_zeros|].
    intros a Ha. by apply init_tables_zero.
Qed.

(** Entries of the tables. *)
Lemma set_values_entries (l : list state) V (z : num) s :
  is_Some (fold_left (λ V s, set_value V s z) l V !! s) ↔ s ∈ l ∨ is_Some (V !! s).
Proof.
  revert V. induction l as [|s' l IH]; intros V; simpl.
  - rewrite elem_of_nil. tauto.
  - rewrite IH, elem_of_cons. unfold set_value. rewrite lookup_insert_is_Some'.
    intuition (simplify_eq; auto).
Qed.

Lemma set_q_values_entries (l : list nat) (f : nat → num) Q s s' a :
  is_Some (fold_left (λ Q a, set_q_value Q s' a (f a)) l Q !! (s, a))
  ↔ (s = s' ∧ a ∈ l) ∨ is_Some (Q !! (s, a)).
Proof.
  revert Q. induction l as [|a' l IH]; intros Q; simpl.
  - rewrite elem_of_nil. tauto.
  - rewrite IH, elem_of_cons. unfold set_q_value. rewrite lookup_insert_is_Some'.
    intuition (simplify_eq; auto).
Qed.

Lemma zero_q_row_entries Q s s' a :
  is_Some (zero_q_row M Q s' !! (s, a))
  ↔ (s = s' ∧ a < num_actions M) ∨ is_Some (Q !! (s, a)).
Proof.
  unfold zero_q_row. rewrite (set_q_values_entries _ (λ _, n_zero)), elem_of_seq.
  intuition lia.
Qed.

Lemma ovi_actions_entries gamma V Q s s' a :
  is_Some ((ovi_actions M gamma V s' Q).1 !! (s, a))
  ↔ (s = s' ∧ a < num_actions M) ∨ is_Some (Q !! (s, a)).
Proof.
  unfold ovi_actions.
  enough (Hgen : ∀ l Q avs,
    is_Some ((fold_left
                (λ '(Q, action_values) action,
                   let q_value := backup_sum M gamma V s' action in
                   (set_q_value Q s' action q_value, action_values ++ [q_value]))
                l (Q, avs)).1 !! (s, a))
    ↔ (s = s' ∧ a ∈ l) ∨ is_Some (Q !! (s, a))).
  { rewrite Hgen, elem_of_seq. intuition lia. }
  clear Q. induction l as [|a' l IH]; intros Q avs; simpl.
  - rewrite elem_of_nil. tauto.
  - rewrite IH, elem_of_cons. unfold set_q_value. rewrite lookup_insert_is_Some'.
    intuition (simplify_eq; auto).
Qed.

Lemma init_tables_entries s a :
  is_Some ((init_tables M).2 !! (s, a)) ↔ s ∈ states M ∧ a < num_actions M.
Proof.
  unfold init_tables.
  enough (Hgen : ∀ l V Q,
    is_Some ((fold_left (λ '(V, Q) s, (set_value V s n_zero, zero_q_row M Q s)) l (V, Q)).2
             !! (s, a))
    ↔ (s ∈ l ∧ a < num_actions M) ∨ is_Some (Q !! (s, a))).
  { rewrite Hgen, lookup_empty. split; [intros [?|[? [=]]]; done | auto]. }
  induction l as [|s' l IH]; intros V Q; simpl.
  - rewrite elem_of_nil. tauto.
  - rewrite IH, zero_q_row_entries, elem_of_cons.
    intuition (simplify_eq; auto).
Qed.

(** The tables the value solvers return hold an entry for each state of the
    model, and for each of its actions in the Q-table, and hold no other
    entry. *)
Theorem value_solver_tables_span_the_model policy gamma theta max_iterations :
  (∀ s, is_Some ((policy_evaluation M policy gamma theta max_iterations).1 !! s)
        ↔ s ∈ states M)
  ∧ (∀ s, is_Some ((optimal_value_iteration M gamma theta max_iterations).1.1 !! s)
          ↔ s ∈ states M)
  ∧ (∀ s a, is_Some ((optimal_value_iteration M gamma theta max_iterations).1.2 !! (s, a))
            ↔ s ∈ states M ∧ a < num_actions M).
Proof.
  assert (Hinit : ∀ s, is_Some (init_values M !! s) ↔ s ∈ states M).
  { intros s. unfold init_values. rewrite set_values_entries, lookup_empty.
    split; [intros [?|[? [=]]]; done | auto]. }
  split.
  - apply (policy_evaluation_keeps M (λ V, ∀ s, is_Some (V !! s) ↔ s ∈ states M));
      [|done].
    intros V md s' Hs' HV s. unfold pe_step.
    destruct (is_terminal_state M s'); simpl; unfold set_value;
      rewrite lookup_insert_is_Some', HV; intuition (simplify_eq; auto).
  - apply (optimal_value_iteration_keeps M
             (λ VQ, (∀ s, is_Some (VQ.1 !! s) ↔ s ∈ states M)
                    ∧ ∀ s a, is_Some (VQ.2 !! (s, a)) ↔ s ∈ states M ∧ a < num_actions M)).
    + intros V Q md s' Hs' [HV HQ]. unfold ovi_step.
      destruct (is_terminal_state M s'); simpl.
      * split.
        -- intros s. unfold set_value. rewrite lookup_insert_is_Some', HV.
           intuition (simplify_eq; auto).
        -- intros s a. rewrite zero_q_row_entries, HQ.
           intuition (simplify_eq; auto).
      * pose proof (λ s a, ovi_actions_entries gamma V Q s s' a) as Hact.
        destruct (ovi_actions M gamma V s' Q) as [Q' avs]. simpl in *. split.
        -- intros s. unfold set_value. rewrite lookup_insert_is_Some', HV.
           intuition (simplify_eq; auto).
        -- intros s a. rewrite Hact, HQ.
           intuition (simplify_eq; auto).
    + split.
      * intros s. simpl. rewrite init_tables_values. apply Hinit.
      * intros s a. apply init_tables_entries.
Qed.

End ValueSolverTables.

(** ** What the solvers do not read *)

Section Unread.

Context {state : Type} `{Countable state}.
Context {num : Type} `{Num num} `{TableDefaults num}.
Implicit Types (M : MDPNetwork state num) (policy : PolicyTable state num).
Implicit Types (V : gmap state num) (s : state) (a : nat) (gamma theta : num).

(** Two runs whose state loops have the same body give the same result. *)
Lemma policy_evaluation_ext M M' policy policy' gamma theta max_iterations :
  states M' = states M →
  (∀ acc s, pe_step M' policy' gamma acc s = pe_step M policy gamma acc s) →
  policy_evaluation M' policy' gamma theta max_iterations
  = policy_evaluation M policy gamma theta max_iterations.
Proof.
  intros Hstates Hstep.
  assert (Hsweep : ∀ V, pe_sweep M' policy' gamma V = pe_sweep M policy gamma V).
  { intros V. unfold pe_sweep. rewrite Hstates. apply fold_left_ext_in.
    intros acc s _. apply Hstep. }
  unfold policy_evaluation, init_values. rewrite Hstates.
  generalize (fold_left (λ V s, set_value V s n_zero) (states M) ∅) as V.
  generalize 0 as iteration. generalize max_iterations at 2 4 as remaining.
  induction remaining as [|r IH]; intros iteration V; simpl; [done|].
  rewrite Hsweep. destruct (pe_sweep M policy gamma V) as [V' md].
  destruct (n_ltb md theta); [done | apply IH].
Qed.

Lemma optimal_value_iteration_ext M M' gamma theta max_iterations :
  states M' = states M →
  num_actions M' = num_actions M →
  (∀ acc s, ovi_step M' gamma acc s = ovi_step M gamma acc s) →
  optimal_value_iteration M' gamma theta max_iterations
  = optimal_value_iteration M gamma theta max_iterations.
Proof.
  intros Hstates Hactions Hstep.
  assert (Hsweep : ∀ V Q, ovi_sweep M' gamma V Q = ovi_sweep M gamma V Q).
  { intros V Q. unfold ovi_sweep. rewrite Hstates. apply fold_left_ext_in.
    intros acc s _. apply Hstep. }
  assert (Hinit : init_tables M' = init_tables M).
  { unfold init_tables. rewrite Hstates. apply fold_left_ext_in.
    intros [V Q] s _. unfold zero_q_row. by rewrite Hactions. }
  unfold optimal_value_iteration. rewrite Hinit. clear Hinit.
  destruct (init_tables M) as [V Q]. revert V Q. generalize 0 as iteration.
  generalize max_iterations at 2 4 as remaining.
  induction remaining as [|r IH]; intros iteration V Q; simpl; [done|].
  rewrite Hsweep. destruct (ovi_sweep M gamma V Q) as [[V' Q'] md].
  destruct (n_ltb md theta); [done | apply IH].
Qed.

Lemma compute_occupancy_measure_ext M M' policy policy' gamma theta max_iterations :
  states M' = states M →
  start_states M' = start_states M →
  (∀ s, is_terminal_state M' s = is_terminal_state M s) →
  (∀ acc item, occ_step M' policy' gamma acc item = occ_step M policy gamma acc item) →
  compute_occupancy_measure M' policy' gamma theta max_iterations
  = compute_occupancy_measure M policy gamma theta max_iterations.
Proof.
  intros Hstates Hstart Hterm Hstep.
  assert (Hiter : ∀ cur occ, occ_iteration M' policy' gamma cur occ
                             = occ_iteration M policy gamma cur occ).
  { intros cur occ. unfold occ_iteration, zero_distribution. rewrite Hstates.
    by apply foldM_ext. }
  assert (Hclean : ∀ occ, occ_cleanup M' occ = occ_cleanup M occ).
  { intros occ. unfold occ_cleanup. rewrite Hstates. apply fold_left_ext_in.
    intros occ' s _. by rewrite Hterm. }
  unfold compute_occupancy_measure, initial_distribution, init_values.
  rewrite Hstates, Hstart.
  destruct (start_states M) as [|s1 starts]; [done|].
  match goal with
  | |- context [occ_loop M policy gamma theta max_iterations max_iterations 0 ?cur ?occ] =>
      generalize cur, occ
  end.
  intros cur occ.
  assert (Hloop : ∀ remaining iteration cur occ,
    occ_loop M' policy' gamma theta max_iterations remaining iteration cur occ
    = occ_loop M policy gamma theta max_iterations remaining iteration cur occ).
  { induction remaining as [|r IH]; intros iteration cur' occ'; simpl; [done|].
    rewrite Hiter.
    destruct (occ_iteration M policy gamma cur' occ') as [[[occ1 mc] next]|e];
      simpl; [|done].
    destruct (n_ltb mc theta); [done | apply IH]. }
  rewrite Hloop.
  destruct (occ_loop M policy gamma theta max_iterations max_iterations 0 cur occ)
    as [[occ1 out]|e]; simpl; [by rewrite Hclean | done].
Qed.

(** The policy-weighted loops pass over the actions of non-positive
    probability. *)
Lemma pe_new_value_prune M policy gamma V s :
  pe_new_value M (prune_policy policy) gamma V s = pe_new_value M policy gamma V s.
Proof.
  unfold pe_new_value. simpl.
  set (body := λ (new_value : num) '(action, action_prob),
         if n_leb action_prob n_zero then new_value
         else n_add new_value (n_mul action_prob (backup_sum M gamma V s action))).
  enough (Hgen : ∀ (l : list (nat * num)) acc,
    fold_left body (List.filter (λ item, negb (n_leb item.2 n_zero)) l) acc
    = fold_left body l acc) by apply Hgen.
  induction l as [|[a p] l IH]; intros acc; [done|].
  simpl. destruct (n_leb p n_zero) eqn:Hp; simpl; [apply IH|].
  rewrite Hp. apply IH.
Qed.

Lemma occ_step_prune M policy gamma acc item :
  occ_step M (prune_policy policy) gamma acc item = occ_step M policy gamma acc item.
Proof.
  unfold occ_step. destruct acc as [[occ mc] next], item as [s sp].
  destruct (n_leb sp n_zero || is_terminal_state M s); [done|].
  f_equal. simpl. revert next.
  induction (get_action_probabilities policy s) as [|[a p] l IH]; intros next; [done|].
  simpl. destruct (n_leb p n_zero) eqn:Hp; simpl; [apply IH|].
  rewrite Hp.
  destruct (occ_propagate M gamma sp p (resolve_transitions M s a) next); simpl;
    [apply IH | done].
Qed.

(** An action to which the policy gives a probability that is not positive
    plays no part: [policy_evaluation] and [compute_occupancy_measure]
    return for a policy what they return for the policy without such
    actions. *)
Theorem nonpositive_actions_are_skipped M policy gamma theta max_iterations :
  policy_evaluation M (prune_policy policy) gamma theta max_iterations
  = policy_evaluation M policy gamma theta max_iterations
  ∧ compute_occupancy_measure M (prune_policy policy) gamma theta max_iterations
    = compute_occupancy_measure M policy gamma theta max_iterations.
Proof.
  split.
  - apply policy_evaluation_ext; [done|].
    intros [V md] s. unfold pe_step. by rewrite pe_new_value_prune.
  - apply compute_occupancy_measure_ext; [done | done | done |].
    apply occ_step_prune.
Qed.

(** A terminal state is absorbing whatever the model says of its
    transitions: the three model-based solvers never read the distributions
    of a terminal state, so replacing them changes no result. *)
Theorem terminal_distributions_are_not_read M policy gamma theta max_iterations
    s0 (dist : nat → list (state * num)) :
  is_terminal_state M s0 = true →
  policy_evaluation (with_distribution M s0 dist) policy gamma theta max_iterations
  = policy_evaluation M policy gamma theta max_iterations
  ∧ optimal_value_iteration (with_distribution M s0 dist) gamma theta max_iterations
    = optimal_value_iteration M gamma theta max_iterations
  ∧ compute_occupancy_measure (with_distribution M s0 dist) policy gamma theta
                              max_iterations
    = compute_occupancy_measure M policy gamma theta max_iterations.
Proof.
  intros Hterm.
  assert (Hresolve : ∀ s a, is_terminal_state M s = false →
    resolve_transitions (with_distribution M s0 dist) s a = resolve_transitions M s a).
  { intros s a Hs. unfold resolve_transitions. simpl.
    rewrite decide_False; [done|]. intros ->. congruence. }
  assert (Hbackup : ∀ V s a, is_terminal_state M s = false →
    backup_sum (with_distribution M s0 dist) gamma V s a = backup_sum M gamma V s a).
  { intros V s a Hs. unfold backup_sum. by rewrite Hresolve. }
  split; [|split].
  - apply policy_evaluation_ext; [done|].
    intros [V md] s. unfold pe_step. simpl.
    destruct (is_terminal_state M s) eqn:Hs; [done|].
    assert (Hnew : pe_new_value (with_distribution M s0 dist) policy gamma V s
                   = pe_new_value M policy gamma V s).
    { unfold pe_new_value. apply fold_left_ext_in.
      intros v [a p] _. by rewrite Hbackup. }
    by rewrite Hnew.
  - apply optimal_value_iteration_ext; [done | done |].
    intros [[V Q] md] s. unfold ovi_step. simpl.
    destruct (is_terminal_state M s) eqn:Hs; [done|].
    assert (Hact : ovi_actions (with_distribution M s0 dist) gamma V s Q
                   = ovi_actions M gamma V s Q).
    { unfold ovi_actions. simpl. apply fold_left_ext_in.
      intros [Q' avs] a _. by rewrite Hbackup. }
    by rewrite Hact.
  - apply compute_occupancy_measure_ext; [done | done | done |].
    intros [[occ mc] next] [s sp]. unfold occ_step. simpl.
    destruct (is_terminal_state M s) eqn:Hs; [by rewrite orb_true_r|].
    destruct (n_leb sp n_zero); [done|]. simpl.
    f_equal. apply foldM_ext. intros next' [a p]. by rewrite Hresolve.
Qed.

End Unread.

(** ** What q_learning writes and prints *)

Section QLearningTables.

Context {state : Type} `{Countable state}.
Context {num : Type} `{Num num} `{TableDefaults num}.
Context {rng : Type} (seeded_rng : Z → rng).
Context (rng_random : rng → num * rng) (rng_integers : nat → nat → rng → nat * rng).
Context (get_best_action : gmap (state * nat) num → state → nat * num).
Context (M : MDPNetwork state num) (smp : Sampling state rng).
Context (alpha gamma epsilon : num).
Implicit Types (Q : gmap (state * nat) num) (V : gmap state num) (g : rng).
Implicit Types (s : state) (a : nat).

#[local] Abbreviation run := (q_learning seeded_rng rng_random rng_integers
                                get_best_action M smp alpha gamma epsilon).
#[local] Abbreviation steps_of := (ql_steps rng_random rng_integers get_best_action
                                     M smp alpha gamma epsilon).
#[local] Abbreviation episodes_of := (ql_episodes rng_random rng_integers
                                        get_best_action M smp alpha gamma epsilon).

(** An episode updates the rows of the non-terminal states it visits, and
    no other. *)
Lemma ql_steps_terminal_row steps current_state g Q s a :
  is_terminal_state M s = true →
  get_q_value (steps_of steps current_state g Q).2 s a = get_q_value Q s a.
Proof.
  intros Hterm. revert current_state g Q.
  induction steps as [|n IH]; intros current_state g Q; simpl; [done|].
  destruct (is_terminal_state M current_state) eqn:Hcur; [done|].
  destruct (rng_random g) as [u g1].
  destruct (if n_ltb u epsilon then rng_integers 0 (num_actions M) g1
            else ((get_best_action Q current_state).1, g1)) as [action g2].
  destruct (sample_next_state smp current_state action g2) as [next_state g3].
  rewrite IH. rewrite get_set_q_value_ne; [done|].
  intros [= -> _]. congruence.
Qed.

Lemma ql_episodes_terminal_row num_episodes max_steps remaining episode g Q out
    Q' out' s a :
  is_terminal_state M s = true →
  episodes_of num_episodes max_steps remaining episode g Q out = Ok (Q', out') →
  get_q_value Q' s a = get_q_value Q s a.
Proof.
  intros Hterm. revert episode g Q out.
  induction remaining as [|r IH]; intros episode g Q out; simpl.
  - by intros [= <- _].
  - destruct (sample_start_state smp g) as [s0 g0].
    pose proof (ql_steps_terminal_row max_steps s0 g0 Q s a Hterm) as Hsteps.
    destruct (steps_of max_steps s0 g0 Q) as [g1 Q1]. simpl in Hsteps.
    destruct (ql_progress num_episodes episode) as [printed|e]; simpl; [|done].
    intros Hrun. rewrite (IH _ _ _ _ Hrun). done.
Qed.

(** The run, when it returns, as its episode loop and its closing loop. *)
Lemma q_learning_returned num_episodes max_steps seed os_entropy Q V out :
  run num_episodes max_steps seed os_entropy = Ok (Q, V, out) →
  episodes_of num_episodes max_steps num_episodes 0
              (default_rng seeded_rng seed os_entropy) (init_tables M).2 []
  = Ok (Q, out)
  ∧ V = ql_extract get_best_action M Q (init_tables M).1.
Proof.
  unfold q_learning. destruct (init_tables M) as [V0 Q0]. simpl.
  destruct (episodes_of num_episodes max_steps num_episodes 0
              (default_rng seeded_rng seed os_entropy) Q0 []) as [[Q1 out1]|e];
    simpl; [|done].
  by intros [= <- <- <-].
Qed.

(** [q_learning] learns nothing about terminal states: in the Q-table it
    returns, the row of every terminal state of the model still holds the
    zeros it was initialised with. *)
Theorem q_learning_keeps_terminal_rows num_episodes max_steps seed os_entropy
    Q V out s a :
  run num_episodes max_steps seed os_entropy = Ok (Q, V, out) →
  s ∈ states M →
  is_terminal_state M s = true →
  a < num_actions M →
  get_q_value Q s a = n_zero.
Proof.
  intros Hrun Hs Hterm Ha.
  apply q_learning_returned in Hrun as [Hepisodes _].
  rewrite (ql_episodes_terminal_row _ _ _ _ _ _ _ _ _ s a Hterm Hepisodes).
  by apply init_tables_zero.
Qed.

(** The value table [q_learning] returns is read off the Q-table it
    returns: 0 for a terminal state of the model, and for any other state
    of the model the Q-value [get_best_action] reports. *)
Theorem q_learning_values_follow_q_table num_episodes max_steps seed os_entropy
    Q V out s :
  run num_episodes max_steps seed os_entropy = Ok (Q, V, out) →
  s ∈ states M →
  get_value V s
  = if is_terminal_state M s then n_zero else (get_best_action Q s).2.
Proof.
  intros Hrun Hs. apply q_learning_returned in Hrun as [_ ->].
  unfold ql_extract.
  apply (fold_left_sets
           (λ V', get_value V' s
                  = if is_terminal_state M s then n_zero
                    else (get_best_action Q s).2)) with (b := s); [done|..].
  - intros V'. destruct (is_terminal_state M s); apply get_set_value.
  - intros V' s' HV'. destruct (decide (s' = s)) as [->|Hne].
    + destruct (is_terminal_state M s); apply get_set_value.
    + destruct (is_terminal_state M s'); by rewrite get_set_value_ne.
Qed.

(** Progress is printed after the episodes whose number is a multiple of
    [num_episodes // 10]. *)
Lemma ql_episodes_printed num_episodes max_steps remaining episode g Q out Q' out' :
  episodes_of num_episodes max_steps remaining episode g Q out = Ok (Q', out') →
  out' = out ++ map (λ k, QLProgress k num_episodes)
                    (List.filter (λ k, k mod (num_episodes / 10) =? 0)
                                 (seq (S episode) remaining)).
Proof.
  revert episode g Q out.
  induction remaining as [|r IH]; intros episode g Q out; cbn -[Nat.div Nat.modulo].
  - intros [= _ <-]. by rewrite app_nil_r.
  - destruct (sample_start_state smp g) as [s0 g0].
    destruct (steps_of max_steps s0 g0 Q) as [g1 Q1].
    unfold ql_progress. destruct (num_episodes / 10 =? 0); [done|].
    rewrite Nat.add_1_r.
    destruct (S episode mod (num_episodes / 10) =? 0); cbn -[Nat.div Nat.modulo];
      intros Hrest; rewrite (IH _ _ _ _ Hrest).
    + by rewrite <- app_assoc.
    + by rewrite app_nil_r.
Qed.

(** Whenever [q_learning] returns, what it has printed is one progress line
    for each episode number from 1 to [num_episodes] that is a multiple of
    [num_episodes // 10], in order. *)
Theorem q_learning_progress_lines num_episodes max_steps seed os_entropy Q V out :
  q_learning seeded_rng rng_random rng_integers get_best_action M smp
             alpha gamma epsilon num_episodes max_steps seed os_entropy
  = Ok (Q, V, out) →
  out = map (λ k, QLProgress k num_episodes)
            (List.filter (λ k, k mod (num_episodes / 10) =? 0) (seq 1 num_episodes)).
Proof.
  intros Hrun. apply q_learning_returned in Hrun as [Hepisodes _].
  by rewrite (ql_episodes_printed _ _ _ _ _ _ _ _ _ Hepisodes).
Qed.

Lemma ql_episodes_idle num_episodes max_steps remaining episode g Q out Q' out' :
  max_steps = 0 ∨ (∀ g, is_terminal_state M (sample_start_state smp g).1 = true) →
  episodes_of num_episodes max_steps remaining episode g Q out = Ok (Q', out') →
  Q' = Q.
Proof.
  intros Hidle. revert episode g Q out.
  induction remaining as [|r IH]; intros episode g Q out; simpl.
  - by intros [= <- _].
  - destruct (sample_start_state smp g) as [s0 g0] eqn:Hs0.
    assert (Hsteps : steps_of max_steps s0 g0 Q = (g0, Q)).
    { destruct Hidle as [-> | Hterm]; [done|].
      specialize (Hterm g). rewrite Hs0 in Hterm. simpl in Hterm.
      destruct max_steps; simpl; [done | by rewrite Hterm]. }
    rewrite Hsteps.
    destruct (ql_progress num_episodes episode) as [printed|e]; simpl; [|done].
    apply IH.
Qed.

(** With a step bound of 0, or when every episode starts in a terminal
    state, no update takes place: the Q-table [q_learning] returns is the
    initial table of zeros. *)
Theorem q_learning_without_steps num_episodes max_steps seed os_entropy Q V out :
  max_steps = 0 ∨ (∀ g, is_terminal_state M (sample_start_state smp g).1 = true) →
  run num_episodes max_steps seed os_entropy = Ok (Q, V, out) →
  Q = (init_tables M).2.
Proof.
  intros Hidle Hrun. apply q_learning_returned in Hrun as [Hepisodes _].
  by apply (ql_episodes_idle _ _ _ _ _ _ _ _ _ Hidle Hepisodes).
Qed.

End QLearningTables.

(** ** When compute_occupancy_measure raises *)

Section FoldsRaise.

Context {A B : Type}.

(** A loop raises [e] when it meets an item [b] whose pass raises [e] under
    the invariant, provided no pass raises anything else. *)
Lemma foldM_raises (P : A → Prop) (f : A → B → Result A) (l : list B) (a : A)
    (b : B) (e : exn) :
  b ∈ l →
  (∀ a b' a', P a → f a b' = Ok a' → P a') →
  (∀ a b' e', f a b' = Raise e' → e' = e) →
  (∀ a, P a → f a b = Raise e) →
  P a → foldM f l a = Raise e.
Proof.
  intros Hin Hkeep Honly Hraise. revert a.
  induction l as [|b' l IH]; intros a Ha; [by apply elem_of_nil in Hin|]. simpl.
  destruct (f a b') as [a'|e'] eqn:Hf; simpl.
  - apply elem_of_cons in Hin as [-> | Hin].
    + rewrite Hraise in Hf; done.
    + apply IH; [done|]. by eapply Hkeep.
  - f_equal. by eapply Honly.
Qed.

Lemma foldM_raises_only (f : A → B → Result A) (l : list B) (a : A) (e e' : exn) :
  (∀ a b e', f a b = Raise e' → e' = e) → foldM f l a = Raise e' → e' = e.
Proof.
  intros Honly. revert a. induction l as [|b l IH]; intros a; simpl; [done|].
  destruct (f a b) as [a'|e''] eqn:Hf; simpl; [apply IH|].
  intros [= <-]. by eapply Honly.
Qed.

End FoldsRaise.

Section OccupancyErrors.

Context {state : Type} `{Countable state}.
Context {num : Type} `{Num num} `{TableDefaults num}.
Context (M : MDPNetwork state num) (policy : PolicyTable state num).
Implicit Types (d next current : list (state * num)) (occ : gmap state num).
Implicit Types (s : state) (gamma theta : num).

(** Every start state has its item in the initial distribution. *)
Lemma initial_distribution_has s :
  s ∈ start_states M →
  (s, n_div n_one (n_of_nat (length (start_states M)))) ∈ initial_distribution M.
Proof.
  intros Hs. unfold initial_distribution.
  set (p := n_div n_one (n_of_nat (length (start_states M)))).
  assert (Hset : ∀ d s', (s, p) ∈ d ∨ s' = s → (s, p) ∈ dict_set d s' p).
  { induction d as [|[k w] d IH]; intros s' Hd; simpl.
    - destruct Hd as [Hd | ->]; [by apply elem_of_nil in Hd | by left].
    - destruct (decide (s' = k)) as [->|Hne].
      + destruct Hd as [Hd | ->]; [|by left].
        apply elem_of_cons in Hd as [[= -> ->] | Hd]; [by left | by right].
      + destruct Hd as [Hd | ->].
        * apply elem_of_cons in Hd as [Heq | Hd]; [rewrite Heq; by left|].
          right. apply IH. by left.
        * right. apply IH. by right. }
  apply (fold_left_sets (λ d, (s, p) ∈ d)) with (b := s); [done|..].
  - intros d. apply Hset. by right.
  - intros d s' Hd. apply Hset. by left.
Qed.

Lemma occ_propagate_raises_only gamma state_prob action_prob tps next e :
  occ_propagate M gamma state_prob action_prob tps next = Raise e → e = KeyError.
Proof.
  unfold occ_propagate. apply foldM_raises_only.
  intros d [ns tp] e'. destruct (is_terminal_state M ns); [done|].
  destruct (dict_get d ns); [done|]. by intros [= <-].
Qed.

Lemma occ_step_raises_only gamma acc item e :
  occ_step M policy gamma acc item = Raise e → e = KeyError.
Proof.
  unfold occ_step. destruct acc as [[occ mc] next], item as [s sp].
  destruct (n_leb sp n_zero || is_terminal_state M s); [done|].
  match goal with
  | |- context [foldM ?f ?l next] => destruct (foldM f l next) as [d|e'] eqn:Hfold
  end; simpl; [done|].
  intros [= <-]. revert Hfold. apply foldM_raises_only.
  intros d [a ap] e''. destruct (n_leb ap n_zero); [done|].
  apply occ_propagate_raises_only.
Qed.

(** Propagation that succeeds gives a state outside the dictionary no
    entry. *)
Lemma occ_propagate_keeps_missing gamma state_prob action_prob tps next next' s :
  dict_get next s = None →
  occ_propagate M gamma state_prob action_prob tps next = Ok next' →
  dict_get next' s = None.
Proof.
  intros Hmiss. unfold occ_propagate.
  apply (foldM_keeps (λ d, dict_get d s = None)); [|done].
  intros d [ns tp] d' _ Hd. destruct (is_terminal_state M ns); [by intros [= <-]|].
  destruct (dict_get d ns) as [p|] eqn:Hns; [|done]. intros [= <-].
  rewrite dict_get_set. rewrite decide_False; [done|]. intros ->. congruence.
Qed.

Lemma occ_step_keeps_missing gamma occ max_change next item occ' max_change' next' s :
  dict_get next s = None →
  occ_step M policy gamma (occ, max_change, next) item = Ok (occ', max_change', next') →
  dict_get next' s = None.
Proof.
  intros Hmiss. unfold occ_step. destruct item as [s1 sp].
  destruct (n_leb sp n_zero || is_terminal_state M s1); [by intros [= _ _ <-]|].
  match goal with
  | |- context [foldM ?f ?l next] => destruct (foldM f l next) as [d|e] eqn:Hfold
  end; simpl; [|done].
  intros [= _ _ <-]. revert Hfold.
  apply (foldM_keeps (λ d, dict_get d s = None)); [|done].
  intros d0 [a ap] d1 _ Hd0. destruct (n_leb ap n_zero); [by intros [= <-]|].
  by apply occ_propagate_keeps_missing.
Qed.

(** A next state that is not among the states of the model has no entry in
    [next_distribution]: when a start state of positive probability can reach
    such a state, not terminal, by an action of positive probability,
    [compute_occupancy_measure] raises [KeyError] in its first iteration
    and returns no table. *)
Theorem unknown_next_state_raises gamma theta max_iterations
    s0 a action_prob next_state transition_prob :
  0 < max_iterations →
  s0 ∈ start_states M →
  is_terminal_state M s0 = false →
  n_leb (n_div n_one (n_of_nat (length (start_states M)))) n_zero = false →
  (a, action_prob) ∈ get_action_probabilities policy s0 →
  n_leb action_prob n_zero = false →
  (next_state, transition_prob) ∈ resolve_transitions M s0 a →
  is_terminal_state M next_state = false →
  next_state ∉ states M →
  compute_occupancy_measure M policy gamma theta max_iterations = Raise KeyError.
Proof.
  intros Hiter Hstart Hs0 Hprob Haction Hap Hnext Hns Hunknown.
  set (p0 := n_div n_one (n_of_nat (length (start_states M)))) in *.
  assert (Hprop : ∀ d, dict_get d next_state = None →
    occ_propagate M gamma p0 action_prob (resolve_transitions M s0 a) d = Raise KeyError).
  { intros d Hd. unfold occ_propagate.
    apply (foldM_raises (λ d, dict_get d next_state = None))
      with (b := (next_state, transition_prob)); [done|..|done].
    - intros d1 [ns tp] d2 Hd1. destruct (is_terminal_state M ns); [by intros [= <-]|].
      destruct (dict_get d1 ns) as [p|] eqn:Hget; [|done]. intros [= <-].
      rewrite dict_get_set. rewrite decide_False; [done|]. intros ->. congruence.
    - intros d1 [ns tp] e'. destruct (is_terminal_state M ns); [done|].
      destruct (dict_get d1 ns); [done|]. by intros [= <-].
    - intros d1 Hd1. by rewrite Hns, Hd1. }
  assert (Hstep : ∀ occ mc d, dict_get d next_state = None →
    occ_step M policy gamma (occ, mc, d) (s0, p0) = Raise KeyError).
  { intros occ mc d Hd. unfold occ_step. rewrite Hprob, Hs0. simpl.
    match goal with
    | |- context [foldM ?f ?l d] =>
        rewrite (foldM_raises (λ d, dict_get d next_state = None) f l d
                   (a, action_prob) KeyError); [done | done | ..]
    end.
    - intros d1 [a1 ap1] d2 Hd1. destruct (n_leb ap1 n_zero); [by intros [= <-]|].
      by apply occ_propagate_keeps_missing.
    - intros d1 [a1 ap1] e'. destruct (n_leb ap1 n_zero); [done|].
      apply occ_propagate_raises_only.
    - intros d1 Hd1. rewrite Hap. by apply Hprop.
    - done. }
  assert (Hzero : dict_get (zero_distribution M) next_state = None).
  { destruct (dict_get (zero_distribution M) next_state) as [p|] eqn:Hget; [|done].
    destruct Hunknown. apply zero_distribution_spans. eauto. }
  unfold compute_occupancy_measure.
  destruct (start_states M) as [|s1 starts] eqn:Hstarts; [by apply elem_of_nil in Hstart|].
  destruct max_iterations as [|n]; [lia|]. simpl.
  unfold occ_iteration at 1.
  rewrite (foldM_raises
             (λ acc : gmap state num * num * list (state * num),
                dict_get acc.2 next_state = None)
             (occ_step M policy gamma) (initial_distribution M)
             (init_values M, n_zero, zero_distribution M) (s0, p0) KeyError); [done|..].
  - subst p0. rewrite <- Hstarts. apply initial_distribution_has.
    rewrite Hstarts. done.
  - intros [[occ1 mc1] d1] item [[occ2 mc2] d2] Hd1. simpl in *.
    by apply occ_step_keeps_missing.
  - intros acc item e'. apply occ_step_raises_only.
  - intros [[occ1 mc1] d1] Hd1. by apply Hstep.
  - done.
Qed.

End OccupancyErrors.

(** ** The value solvers on exact rationals *)

Section ExactValueSolvers.

Context {state : Type} `{Countable state} `{TableDefaults Qc}.
Context (M : MDPNetwork state Qc).
Implicit Types (V : gmap state Qc) (Q : gmap (state * nat) Qc).
Implicit Types (policy : PolicyTable state Qc) (s : state) (gamma theta : Qc).

Lemma Qc_leb_le (x y : Qc) : Qc_leb x y = true ↔ (x <= y)%Qc.
Proof.
  unfold Qc_leb. rewrite Qcle_alt. destruct (x ?= y)%Qc; split; congruence.
Qed.

Lemma Qc_leb_gt (x y : Qc) : Qc_leb x y = false ↔ (y < x)%Qc.
Proof.
  split.
  - intros Hleb. apply Qcnot_le_lt. intros Hle. apply Qc_leb_le in Hle. congruence.
  - intros Hlt. destruct (Qc_leb x y) eqn:Hleb; [|done].
    apply Qc_leb_le in Hleb. by apply Qclt_not_le in Hlt.
Qed.

(** No change is below a threshold that is not positive. *)
Lemma Qc_ltb_nonpositive (delta theta : Qc) :
  (0 <= delta)%Qc → (theta <= 0)%Qc → Qc_ltb delta theta = false.
Proof.
  intros Hdelta Htheta. destruct (Qc_ltb delta theta) eqn:Hlt; [|done].
  apply Qc_ltb_lt in Hlt. exfalso. eapply Qclt_not_le; [exact Hlt|].
  by eapply Qcle_trans.
Qed.

Lemma pe_sweep_delta_nonneg policy gamma V :
  (0 <= (pe_sweep M policy gamma V).2)%Qc.
Proof.
  unfold pe_sweep.
  apply (fold_left_keeps (λ acc : gmap state Qc * Qc, (0 <= acc.2)%Qc));
    [|apply Qcle_refl].
  intros [V' md] s _ Hmd. unfold pe_step. simpl in *.
  destruct (is_terminal_state M s); simpl; [done|].
  eapply Qcle_trans; [exact Hmd | apply py_max_l].
Qed.

Lemma ovi_sweep_delta_nonneg gamma V Q :
  (0 <= (ovi_sweep M gamma V Q).2)%Qc.
Proof.
  unfold ovi_sweep.
  apply (fold_left_keeps (λ acc : gmap state Qc * gmap (state * nat) Qc * Qc,
                            (0 <= acc.2)%Qc)); [|apply Qcle_refl].
  intros [[V' Q'] md] s _ Hmd. unfold ovi_step. simpl in *.
  destruct (is_terminal_state M s); simpl; [done|].
  destruct (ovi_actions M gamma V' s Q') as [Q'' avs]. simpl.
  eapply Qcle_trans; [exact Hmd | apply py_max_l].
Qed.

(** With a threshold [theta <= 0] the convergence test never succeeds: both
    value solvers run all [max_iterations] sweeps, one after the other from
    the initial tables, and report that the maximum was reached. *)
Theorem nonpositive_theta_runs_every_sweep policy gamma theta max_iterations :
  (theta <= 0)%Qc →
  policy_evaluation M policy gamma theta max_iterations
  = (Nat.iter max_iterations (λ V, (pe_sweep M policy gamma V).1) (init_values M),
     [PEMaxIterations max_iterations])
  ∧ optimal_value_iteration M gamma theta max_iterations
    = (Nat.iter max_iterations (λ VQ, (ovi_sweep M gamma VQ.1 VQ.2).1) (init_tables M),
       [OVIMaxIterations max_iterations]).
Proof.
  intros Htheta. split.
  - unfold policy_evaluation. generalize (init_values M) as V.
    generalize 0 as iteration. generalize max_iterations at 2 3 as remaining.
    induction remaining as [|r IH]; intros iteration V; [done|].
    rewrite Nat.iter_succ_r. simpl.
    pose proof (pe_sweep_delta_nonneg policy gamma V) as Hdelta.
    destruct (pe_sweep M policy gamma V) as [V' md]. simpl in *.
    rewrite Qc_ltb_nonpositive by done. apply IH.
  - unfold optimal_value_iteration.
    generalize (init_tables M) as VQ. generalize 0 as iteration.
    generalize max_iterations at 2 3 as remaining.
    induction remaining as [|r IH]; intros iteration [V Q]; [done|].
    rewrite Nat.iter_succ_r. simpl.
    pose proof (ovi_sweep_delta_nonneg gamma V Q) as Hdelta.
    destruct (ovi_sweep M gamma V Q) as [[V' Q'] md]. simpl in *.
    rewrite Qc_ltb_nonpositive by done. apply (IH (S iteration) (V', Q')).
Qed.

Lemma pe_loop_sets (P : gmap state Qc → Prop) policy gamma theta
    max_iterations remaining iteration V :
  0 < remaining →
  (∀ V, P (pe_sweep M policy gamma V).1) →
  P (pe_loop M policy gamma theta max_iterations remaining iteration V).1.
Proof.
  intros Hpos Hsweep. destruct remaining as [|r]; [lia|]. simpl.
  pose proof (Hsweep V) as HP.
  destruct (pe_sweep M policy gamma V) as [V' md]. simpl in HP.
  destruct (Qc_ltb md theta); [done|].
  apply pe_loop_keeps; [|done]. intros V'' _. apply Hsweep.
Qed.

(** With [gamma = 0], once [policy_evaluation] has run a sweep, the value
    it returns for a non-terminal state of the model is the reward one step
    of the policy brings: the one-step rewards of the actions of positive
    probability, weighted by the policy, whatever [theta] and
    [max_iterations] are. *)
Theorem zero_discount_policy_value policy theta max_iterations s :
  0 < max_iterations →
  s ∈ states M →
  is_terminal_state M s = false →
  get_value (policy_evaluation M policy 0%Qc theta max_iterations).1 s
  = policy_reward M policy s.
Proof.
  intros Hiter Hs Hterm.
  assert (Hset : ∀ V md,
    get_value (pe_step M policy 0%Qc (V, md) s).1 s = policy_reward M policy s).
  { intros V md. unfold pe_step. rewrite Hterm. simpl. rewrite get_set_value.
    unfold pe_new_value, policy_reward. apply fold_left_ext_in.
    intros acc [a p] _. by rewrite backup_sum_zero_discount. }
  unfold policy_evaluation.
  apply (pe_loop_sets (λ V, get_value V s = policy_reward M policy s)); [done|].
  intros V. unfold pe_sweep.
  apply (fold_left_sets (λ acc, get_value acc.1 s = policy_reward M policy s))
    with (b := s); [done|..].
  - intros [V' md]. apply Hset.
  - intros [V' md] s' HV'. destruct (decide (s' = s)) as [->|Hne]; [apply Hset|].
    by rewrite pe_step_other.
Qed.

(** With a single action the two value solvers go the same way: when the
    model has one action and the policy gives it probability 1 in every
    state, a pass of [policy_evaluation] writes what a pass of
    [optimal_value_iteration] writes. *)
Lemma single_action_step policy gamma V Q max_delta s :
  num_actions M = 1 →
  (∀ s, get_action_probabilities policy s = [(0, 1%Qc)]) →
  pe_step M policy gamma (V, max_delta) s
  = ((ovi_step M gamma (V, Q, max_delta) s).1.1, (ovi_step M gamma (V, Q, max_delta) s).2).
Proof.
  intros Hone Hpolicy. unfold pe_step, ovi_step.
  destruct (is_terminal_state M s); [done|].
  unfold ovi_actions, pe_new_value. rewrite Hone, Hpolicy. simpl.
  by rewrite Qcplus_0_l, Qcmult_1_l.
Qed.

(** On a model with one action, evaluating the policy that always takes
    it is solving the model: [policy_evaluation] and
    [optimal_value_iteration] return the same value table, and stop after the
    same number of sweeps. *)
Theorem single_action_evaluation_is_optimal policy gamma theta max_iterations :
  num_actions M = 1 →
  (∀ s, get_action_probabilities policy s = [(0, 1%Qc)]) →
  (policy_evaluation M policy gamma theta max_iterations).1
  = (optimal_value_iteration M gamma theta max_iterations).1.1
  ∧ ((policy_evaluation M policy gamma theta max_iterations).2
       = [PEMaxIterations max_iterations]
     ∧ (optimal_value_iteration M gamma theta max_iterations).2
       = [OVIMaxIterations max_iterations]
     ∨ ∃ k, (policy_evaluation M policy gamma theta max_iterations).2
            = [PEConverged k]
          ∧ (optimal_value_iteration M gamma theta max_iterations).2
            = [OVIConverged k]).
Proof.
  intros Hone Hpolicy.
  assert (Hsweep : ∀ V Q,
    pe_sweep M policy gamma V
    = ((ovi_sweep M gamma V Q).1.1, (ovi_sweep M gamma V Q).2)).
  { intros V Q. unfold pe_sweep, ovi_sweep. generalize (n_zero : Qc) as md.
    revert V Q. induction (states M) as [|s l IH]; intros V Q md; [done|].
    cbn [fold_left].
    rewrite (single_action_step policy gamma V Q md s Hone Hpolicy).
    destruct (ovi_step M gamma (V, Q, md) s) as [[V' Q'] md']. apply IH. }
  unfold policy_evaluation, optimal_value_iteration.
  rewrite <- init_tables_values. destruct (init_tables M) as [V Q]. simpl.
  enough (Hloop : ∀ remaining iteration V Q,
    (pe_loop M policy gamma theta max_iterations remaining iteration V).1
    = (ovi_loop M gamma theta max_iterations remaining iteration V Q).1.1
    ∧ ((pe_loop M policy gamma theta max_iterations remaining iteration V).2
         = [PEMaxIterations max_iterations]
       ∧ (ovi_loop M gamma theta max_iterations remaining iteration V Q).2
         = [OVIMaxIterations max_iterations]
       ∨ ∃ k, (pe_loop M policy gamma theta max_iterations remaining iteration V).2
              = [PEConverged k]
            ∧ (ovi_loop M gamma theta max_iterations remaining iteration V Q).2
              = [OVIConverged k])) by apply Hloop.
  clear V Q. induction remaining as [|r IH]; intros iteration V Q; simpl.
  - split; [done|]. by left.
  - rewrite (Hsweep V Q).
    destruct (ovi_sweep M gamma V Q) as [[V' Q'] md]. simpl.
    destruct (Qc_ltb md theta); [|apply IH].
    split; [done|]. right. by exists (iteration + 1).
Qed.

End ExactValueSolvers.

(** ** The occupancy table through the iterations *)

Section FoldsSet.

Context {A B : Type}.

(** A loop that completes has met [b]: what the pass for [b] makes of [P0]
    holds at the end when every pass keeps it, and [P0] up to there. *)
Lemma foldM_sets (P0 P : A → Prop) (f : A → B → Result A) (l : list B)
    (a a' : A) (b : B) :
  b ∈ l →
  (∀ a b' a', P0 a → f a b' = Ok a' → P0 a') →
  (∀ a a', P0 a → f a b = Ok a' → P a') →
  (∀ a b' a', P a → f a b' = Ok a' → P a') →
  P0 a → foldM f l a = Ok a' → P a'.
Proof.
  intros Hin Hkeep0 Hset Hkeep. apply list_elem_of_split in Hin as (l1 & l2 & ->).
  revert a. induction l1 as [|b1 l1 IH]; intros a Ha; simpl.
  - destruct (f a b) as [a1|e] eqn:Hf; simpl; [|done].
    apply (foldM_keeps P); [|by eapply Hset].
    intros a2 b2 a3 _. apply Hkeep.
  - destruct (f a b1) as [a1|e] eqn:Hf; simpl; [|done].
    apply IH. by eapply Hkeep0.
Qed.

End FoldsSet.

Section OccupancyTable.

Context {state : Type} `{Countable state}.
Context {num : Type} `{Num num} `{TableDefaults num}.
Context (M : MDPNetwork state num) (policy : PolicyTable state num).
Implicit Types (d next current : list (state * num)) (occ : gmap state num).
Implicit Types (s : state) (gamma theta : num).

(** What a pass of the distribution loop does to the occupancy table: it
    adds the probability of its state, unless it skips the state. *)
Lemma occ_step_table gamma occ max_change next s state_prob occ' max_change' next' :
  occ_step M policy gamma (occ, max_change, next) (s, state_prob)
  = Ok (occ', max_change', next') →
  occ' = if n_leb state_prob n_zero || is_terminal_state M s then occ
         else set_value occ s (n_add (get_value occ s) state_prob).
Proof.
  unfold occ_step.
  destruct (n_leb state_prob n_zero || is_terminal_state M s); [by intros [= <- _ _]|].
  match goal with
  | |- context [foldM ?f ?l next] => destruct (foldM f l next) as [d|e]
  end; simpl; [|done].
  by intros [= <- _ _].
Qed.

(** A property of the occupancy table that every pass keeps holds of the
    table the iterations end with. *)
Lemma occ_iteration_keeps (P : gmap state num → Prop) gamma current occ
    occ' max_change next :
  (∀ occ s p, P occ → P (if n_leb p n_zero || is_terminal_state M s then occ
                         else set_value occ s (n_add (get_value occ s) p))) →
  P occ →
  occ_iteration M policy gamma current occ = Ok (occ', max_change, next) →
  P occ'.
Proof.
  intros Hstep Hocc. unfold occ_iteration.
  apply (foldM_keeps (λ acc : gmap state num * num * list (state * num), P acc.1.1));
    [|done].
  intros [[occ1 mc1] next1] [s p] [[occ2 mc2] next2] _ Hocc1 Hrun. simpl in *.
  rewrite (occ_step_table _ _ _ _ _ _ _ _ _ Hrun). by apply Hstep.
Qed.

Lemma occ_loop_keeps (P : gmap state num → Prop) gamma theta max_iterations
    remaining iteration current occ occ' out :
  (∀ occ s p, P occ → P (if n_leb p n_zero || is_terminal_state M s then occ
                         else set_value occ s (n_add (get_value occ s) p))) →
  P occ →
  occ_loop M policy gamma theta max_iterations remaining iteration current occ
  = Ok (occ', out) →
  P occ'.
Proof.
  intros Hstep. revert iteration current occ.
  induction remaining as [|r IH]; intros iteration current occ Hocc; simpl.
  - by intros [= <- _].
  - destruct (occ_iteration M policy gamma current occ) as [[[occ1 mc] next]|e] eqn:Hiter;
      simpl; [|done].
    pose proof (occ_iteration_keeps P _ _ _ _ _ _ Hstep Hocc Hiter) as Hocc1.
    destruct (n_ltb mc theta); [by intros [= <- _] | by apply IH].
Qed.

(** The closing loop leaves the non-terminal states alone. *)
Lemma occ_cleanup_other occ s :
  is_terminal_state M s = false → get_value (occ_cleanup M occ) s = get_value occ s.
Proof.
  intros Hterm. unfold occ_cleanup.
  apply (fold_left_keeps (λ occ', get_value occ' s = get_value occ s)); [|done].
  intros occ' s' _ Hocc'. destruct (is_terminal_state M s') eqn:Hs'; [|done].
  rewrite get_set_value_ne; [done|]. intros ->. congruence.
Qed.

(** The run, when it returns with start states, as its loop and its
    closing loop. *)
Lemma compute_occupancy_measure_returned gamma theta max_iterations occ out :
  start_states M ≠ [] →
  compute_occupancy_measure M policy gamma theta max_iterations = Ok (occ, out) →
  ∃ occ', occ_loop M policy gamma theta max_iterations max_iterations 0
                   (initial_distribution M) (init_values M) = Ok (occ', out)
          ∧ occ = occ_cleanup M occ'.
Proof.
  intros Hstart. unfold compute_occupancy_measure.
  destruct (start_states M) as [|s1 starts]; [done|].
  destruct (occ_loop M policy gamma theta max_iterations max_iterations 0
                     (initial_distribution M) (init_values M)) as [[occ' out']|e];
    simpl; [|done].
  intros [= <- <-]. eauto.
Qed.

End OccupancyTable.

Section PyDictFacts.

Context {K V : Type} `{EqDecision K}.
Implicit Types (d : list (K * V)) (k : K) (v : V).

Lemma dict_get_Some_elem d k v : dict_get d k = Some v → (k, v) ∈ d.
Proof.
  induction d as [|[k' v'] d IH]; simpl; [done|].
  destruct (decide (k = k')) as [->|Hne].
  - intros [= ->]. by left.
  - intros Hget. right. by apply IH.
Qed.

(** An assignment adds one item at most, and it is the one assigned. *)
Lemma elem_of_dict_set d k v k' v' :
  (k', v') ∈ dict_set d k v → (k', v') ∈ d ∨ (k' = k ∧ v' = v).
Proof.
  induction d as [|[k1 v1] d IH]; simpl.
  - intros Hin. apply list_elem_of_singleton in Hin as [= -> ->]. by right.
  - destruct (decide (k = k1)) as [->|Hne]; intros Hin;
      apply elem_of_cons in Hin as [[= -> ->] | Hin].
    + by right.
    + left. by right.
    + left. by left.
    + destruct (IH Hin) as [Hd | Heq]; [|by right]. left. by right.
Qed.

Lemma dict_set_keys d k v k' :
  k' ∈ (dict_set d k v).*1 ↔ k' = k ∨ k' ∈ d.*1.
Proof.
  induction d as [|[k1 v1] d IH]; simpl.
  - rewrite list_elem_of_singleton, elem_of_nil. tauto.
  - destruct (decide (k = k1)) as [->|Hne]; simpl.
    + rewrite elem_of_cons. tauto.
    + rewrite !elem_of_cons, IH. tauto.
Qed.

Lemma dict_set_NoDup d k v : NoDup d.*1 → NoDup (dict_set d k v).*1.
Proof.
  induction d as [|[k1 v1] d IH]; simpl.
  - intros _. apply NoDup_singleton.
  - rewrite NoDup_cons. intros [Hk1 Hd].
    destruct (decide (k = k1)) as [->|Hne]; simpl; apply NoDup_cons.
    + done.
    + split; [|by apply IH]. rewrite dict_set_keys. intros [-> | Hin]; done.
Qed.

End PyDictFacts.

(** ** The occupancy solver on exact rationals *)

Section ExactOccupancy.

Context {state : Type} `{Countable state} `{TableDefaults Qc}.
Context (M : MDPNetwork state Qc) (policy : PolicyTable state Qc).
Implicit Types (d next current : list (state * Qc)) (occ : gmap state Qc).
Implicit Types (s : state) (gamma theta : Qc).

#[local] Abbreviation initial_prob :=
  (n_div n_one (n_of_nat (length (start_states M))) : Qc).

Lemma Qc_of_nat_positive (n : nat) : (0 < (n_of_nat (S n) : Qc))%Qc.
Proof.
  unfold Qclt. change (0 < Qred (inject_Z (Z.of_nat (S n))))%Q.
  rewrite Qred_correct. unfold Qlt. simpl. lia.
Qed.

Lemma Qc_inverse_positive (x : Qc) : (0 < x)%Qc → (0 < 1 / x)%Qc.
Proof.
  intros Hx. apply Qcnot_le_lt. intros Hle.
  apply (Qcmult_le_compat_r _ _ x) in Hle; [|by apply Qclt_le_weak].
  rewrite Qcmult_0_l, Qcmult_comm, Qcmult_div_r in Hle.
  - by apply Qcle_not_lt in Hle.
  - intros ->. by apply Qclt_not_eq in Hx.
Qed.

(** With start states, each of them starts with a positive probability. *)
Lemma initial_prob_positive : start_states M ≠ [] → (0 < initial_prob)%Qc.
Proof.
  destruct (start_states M) as [|s1 starts]; [done|]. intros _.
  apply Qc_inverse_positive. apply Qc_of_nat_positive.
Qed.

(** A pass of the distribution loop lowers no entry. *)
Lemma occ_update_grows occ s s' (p : Qc) :
  (get_value occ s
   <= get_value (if n_leb p n_zero || is_terminal_state M s' then occ
                 else set_value occ s' (n_add (get_value occ s') p)) s)%Qc.
Proof.
  destruct (n_leb p n_zero) eqn:Hp; simpl; [apply Qcle_refl|].
  destruct (is_terminal_state M s'); [apply Qcle_refl|].
  destruct (decide (s' = s)) as [->|Hne].
  - rewrite get_set_value. apply Qc_leb_gt in Hp.
    rewrite <- (Qcplus_0_r (get_value occ s)) at 1.
    apply Qcplus_le_compat; [apply Qcle_refl | by apply Qclt_le_weak].
  - rewrite get_set_value_ne by done. apply Qcle_refl.
Qed.

(** No entry of the table [compute_occupancy_measure] returns is negative,
    whatever the signs of [gamma] and of the probabilities the model and the
    policy give: mass that is not positive is never added. *)
Theorem occupancy_is_nonnegative gamma theta max_iterations occ out s :
  compute_occupancy_measure M policy gamma theta max_iterations = Ok (occ, out) →
  s ∈ states M →
  (0 <= get_value occ s)%Qc.
Proof.
  intros Hrun Hs.
  destruct (decide (start_states M = [])) as [Hnone | Hsome].
  - unfold compute_occupancy_measure in Hrun. rewrite Hnone in Hrun.
    cbv beta iota zeta in Hrun. injection Hrun as <- _.
    rewrite init_values_zero by done. apply Qcle_refl.
  - apply compute_occupancy_measure_returned in Hrun as (occ' & Hloop & ->); [|done].
    assert (Hocc' : (0 <= get_value occ' s)%Qc).
    { revert Hloop. apply (occ_loop_keeps M policy (λ occ, (0 <= get_value occ s)%Qc)).
      - intros occ1 s' p Hocc1. eapply Qcle_trans; [exact Hocc1 | apply occ_update_grows].
      - rewrite init_values_zero by done. apply Qcle_refl. }
    destruct (is_terminal_state M s) eqn:Hterm.
    + rewrite occ_cleanup_terminal by done. apply Qcle_refl.
    + by rewrite occ_cleanup_other.
Qed.

(** After one iteration or more, the occupancy of a non-terminal start
    state is at least its share [1 / len(start_states)] of the initial
    distribution. *)
Theorem start_state_occupancy_lower_bound gamma theta max_iterations occ out s :
  compute_occupancy_measure M policy gamma theta max_iterations = Ok (occ, out) →
  0 < max_iterations →
  s ∈ start_states M →
  s ∈ states M →
  is_terminal_state M s = false →
  (initial_prob <= get_value occ s)%Qc.
Proof.
  intros Hrun Hiter Hstart Hs Hterm.
  assert (Hsome : start_states M ≠ []).
  { intros Hnone. rewrite Hnone in Hstart. by apply elem_of_nil in Hstart. }
  pose proof (initial_prob_positive Hsome) as Hpos.
  apply compute_occupancy_measure_returned in Hrun as (occ' & Hloop & ->); [|done].
  rewrite occ_cleanup_other by done.
  destruct max_iterations as [|n]; [lia|]. simpl in Hloop.
  destruct (occ_iteration M policy gamma (initial_distribution M) (init_values M))
    as [[[occ1 mc] next]|e] eqn:Hfirst; simpl in Hloop; [|done].
  assert (Hocc1 : (initial_prob <= get_value occ1 s)%Qc).
  { revert Hfirst. unfold occ_iteration.
    apply (foldM_sets
             (λ acc : gmap state Qc * Qc * list (state * Qc),
                (0 <= get_value acc.1.1 s)%Qc)
             (λ acc : gmap state Qc * Qc * list (state * Qc),
                (initial_prob <= get_value acc.1.1 s)%Qc))
      with (b := (s, initial_prob)).
    - by apply initial_distribution_has.
    - intros [[occ2 mc2] next2] [s' p] [[occ3 mc3] next3] Hocc2 Hstep. cbn [fst snd] in *.
      rewrite (occ_step_table _ _ _ _ _ _ _ _ _ _ _ Hstep).
      eapply Qcle_trans; [exact Hocc2 | apply occ_update_grows].
    - intros [[occ2 mc2] next2] [[occ3 mc3] next3] Hocc2 Hstep. cbn [fst snd] in *.
      rewrite (occ_step_table _ _ _ _ _ _ _ _ _ _ _ Hstep).
      apply Qc_leb_gt in Hpos. change (n_leb initial_prob n_zero = false) in Hpos.
      rewrite Hpos, Hterm. cbn [orb]. rewrite get_set_value.
      rewrite <- (Qcplus_0_l initial_prob) at 1.
      apply Qcplus_le_compat; [done | apply Qcle_refl].
    - intros [[occ2 mc2] next2] [s' p] [[occ3 mc3] next3] Hocc2 Hstep. cbn [fst snd] in *.
      rewrite (occ_step_table _ _ _ _ _ _ _ _ _ _ _ Hstep).
      eapply Qcle_trans; [exact Hocc2 | apply occ_update_grows].
    - cbn [fst snd]. rewrite init_values_zero by done. apply Qcle_refl. }
  destruct (Qc_ltb mc theta); [by injection Hloop as <- _|].
  revert Hloop.
  apply (occ_loop_keeps M policy (λ occ, (initial_prob <= get_value occ s)%Qc)); [|done].
  intros occ2 s' p Hocc2. eapply Qcle_trans; [exact Hocc2 | apply occ_update_grows].
Qed.

End ExactOccupancy.

(** ** The occupancy solver without discounted mass *)

Section ZeroDiscountOccupancy.

Context {state : Type} `{Countable state} `{TableDefaults Qc}.
Context (M : MDPNetwork state Qc) (policy : PolicyTable state Qc).
Implicit Types (d next current : list (state * Qc)) (occ : gmap state Qc).
Implicit Types (s : state) (gamma theta : Qc).

#[local] Abbreviation initial_prob :=
  (n_div n_one (n_of_nat (length (start_states M))) : Qc).

(** The initial distribution: one item for each start state, all of the
    same probability. *)
Lemma initial_distribution_keys s :
  s ∈ (initial_distribution M).*1 ↔ s ∈ start_states M.
Proof.
  unfold initial_distribution.
  enough (Hgen : ∀ (l : list state) d,
    s ∈ (fold_left (λ d s, dict_set d s initial_prob) l d).*1 ↔ s ∈ l ∨ s ∈ d.*1).
  { rewrite Hgen. simpl. rewrite elem_of_nil. tauto. }
  induction l as [|s' l IH]; intros d; simpl.
  - rewrite elem_of_nil. tauto.
  - rewrite IH, dict_set_keys, elem_of_cons. tauto.
Qed.

Lemma initial_distribution_NoDup : NoDup (initial_distribution M).*1.
Proof.
  unfold initial_distribution.
  apply (fold_left_keeps (λ d : list (state * Qc), NoDup d.*1)); [|apply NoDup_nil_2].
  intros d s _. apply dict_set_NoDup.
Qed.

Lemma initial_distribution_values s p :
  (s, p) ∈ initial_distribution M → p = initial_prob.
Proof.
  unfold initial_distribution.
  apply (fold_left_keeps (λ d : list (state * Qc), (s, p) ∈ d → p = initial_prob)).
  - intros d s' _ Hd Hin. apply elem_of_dict_set in Hin as [Hin | [_ ->]]; auto.
  - intros Hin. by apply elem_of_nil in Hin.
Qed.

(** One pass over a distribution of probability [p > 0] in every item adds
    [p] to the entry of each of its non-terminal states, once. *)
Lemma occ_pass_adds_once gamma (p : Qc) current occ max_change next
    occ' max_change' next' s :
  NoDup current.*1 →
  (∀ k v, (k, v) ∈ current → v = p) →
  (0 < p)%Qc →
  foldM (occ_step M policy gamma) current (occ, max_change, next)
  = Ok (occ', max_change', next') →
  get_value occ' s
  = if decide (s ∈ current.*1)
    then (if is_terminal_state M s then get_value occ s
          else (get_value occ s + p)%Qc)
    else get_value occ s.
Proof.
  intros Hnodup Hvalues Hp. revert occ max_change next Hnodup Hvalues.
  induction current as [|[k v] current IH]; intros occ mc next Hnodup Hvalues.
  - intros [= <- _ _]. rewrite decide_False; [done|]. apply not_elem_of_nil.
  - cbn [foldM].
    destruct (occ_step M policy gamma (occ, mc, next) (k, v))
      as [[[occ1 mc1] next1]|e] eqn:Hstep; [|done].
    intros Hrest. change (foldM (occ_step M policy gamma) current (occ1, mc1, next1)
                          = Ok (occ', max_change', next')) in Hrest.
    rewrite fmap_cons in Hnodup. apply NoDup_cons in Hnodup as [Hk Hnodup].
    assert (Hvalues' : ∀ k' v', (k', v') ∈ current → v' = p).
    { intros k' v' Hin. apply (Hvalues k' v'). by right. }
    rewrite (IH occ1 mc1 next1 Hnodup Hvalues' Hrest).
    apply occ_step_table in Hstep. rewrite (Hvalues k v) in Hstep by (by left).
    apply Qc_leb_gt in Hp. change (n_leb p n_zero = false) in Hp.
    rewrite Hp in Hstep. cbn [orb] in Hstep. rewrite fmap_cons. cbn [fst].
    destruct (decide (s = k)) as [->|Hne].
    + rewrite decide_False by done. rewrite decide_True by (by left).
      subst occ1. destruct (is_terminal_state M k); [done|]. by rewrite get_set_value.
    + assert (Hsame : get_value occ1 s = get_value occ s).
      { subst occ1. destruct (is_terminal_state M k); [done|].
        by rewrite get_set_value_ne. }
      rewrite Hsame. destruct (decide (s ∈ current.*1)) as [Hin | Hnotin].
      * rewrite decide_True by (by right). done.
      * rewrite decide_False; [done|]. rewrite elem_of_cons. tauto.
Qed.

Lemma zero_distribution_values s p : (s, p) ∈ zero_distribution M → p = 0%Qc.
Proof.
  unfold zero_distribution.
  apply (fold_left_keeps (λ d : list (state * Qc), (s, p) ∈ d → p = 0%Qc)).
  - intros d s' _ Hd Hin. apply elem_of_dict_set in Hin as [Hin | [_ ->]]; auto.
  - intros Hin. by apply elem_of_nil in Hin.
Qed.

(** With [gamma = 0] every propagated probability is 0. *)
Lemma occ_iteration_zero_discount_next current occ occ' max_change next :
  occ_iteration M policy 0%Qc current occ = Ok (occ', max_change, next) →
  ∀ s p, (s, p) ∈ next → p = 0%Qc.
Proof.
  unfold occ_iteration.
  apply (foldM_keeps (λ acc : gmap state Qc * Qc * list (state * Qc),
                        ∀ s p, (s, p) ∈ acc.2 → p = 0%Qc));
    [|apply zero_distribution_values].
  intros [[occ1 mc1] d1] [s1 sp] [[occ2 mc2] d2] _ Hd1. cbn [fst snd] in *.
  unfold occ_step. destruct (n_leb sp n_zero || is_terminal_state M s1);
    [by intros [= _ _ <-]|].
  match goal with
  | |- context [foldM ?f ?l d1] => destruct (foldM f l d1) as [d|e] eqn:Hfold
  end; [|done].
  intros [= _ _ <-]. revert Hfold.
  apply (foldM_keeps (λ d : list (state * Qc), ∀ s p, (s, p) ∈ d → p = 0%Qc)); [|done].
  intros d3 [a ap] d4 _ Hd3. destruct (n_leb ap n_zero); [by intros [= <-]|].
  unfold occ_propagate.
  apply (foldM_keeps (λ d : list (state * Qc), ∀ s p, (s, p) ∈ d → p = 0%Qc)); [|done].
  intros d5 [ns tp] d6 _ Hd5. destruct (is_terminal_state M ns); [by intros [= <-]|].
  destruct (dict_get d5 ns) as [p0|] eqn:Hget; [|done]. intros [= <-] s p Hin.
  apply elem_of_dict_set in Hin as [Hin | [_ ->]]; [by eapply Hd5|].
  apply dict_get_Some_elem in Hget. rewrite (Hd5 ns p0 Hget).
  change (0 + sp * ap * tp * 0 = 0)%Qc. by rewrite Qcmult_0_r, Qcplus_0_r.
Qed.

(** An iteration over a distribution without mass changes nothing. *)
Lemma occ_iteration_idle gamma current occ :
  (∀ s p, (s, p) ∈ current → p = 0%Qc) →
  occ_iteration M policy gamma current occ = Ok (occ, 0%Qc, zero_distribution M).
Proof.
  intros Hzero. unfold occ_iteration.
  enough (Hgen : ∀ acc, foldM (occ_step M policy gamma) current acc = Ok acc)
    by apply Hgen.
  induction current as [|[s p] current IH]; intros acc; [done|]. cbn [foldM].
  rewrite (Hzero s p) by (by left).
  assert (Hskip : occ_step M policy gamma acc (s, 0%Qc) = Ok acc).
  { by destruct acc as [[occ1 mc1] next1]. }
  rewrite Hskip. apply IH. intros s' p' Hin. apply (Hzero s' p'). by right.
Qed.

Lemma occ_loop_idle gamma theta max_iterations remaining iteration current occ occ' out :
  (∀ s p, (s, p) ∈ current → p = 0%Qc) →
  occ_loop M policy gamma theta max_iterations remaining iteration current occ
  = Ok (occ', out) →
  occ' = occ.
Proof.
  revert iteration current. induction remaining as [|r IH]; intros iteration current Hzero.
  - by intros [= <- _].
  - cbn [occ_loop]. rewrite occ_iteration_idle by done.
    change (Ok (occ, 0%Qc, zero_distribution M) ≫= _)
      with (if n_ltb 0%Qc theta then Ok (occ, [OccConverged (iteration + 1)])
            else occ_loop M policy gamma theta max_iterations r (S iteration)
                          (zero_distribution M) occ).
    destruct (n_ltb 0%Qc theta); [by intros [= <- _]|].
    apply IH. apply zero_distribution_values.
Qed.

(** With [gamma = 0] nothing is propagated: after one iteration or more the
    occupancy of a state of the model is its share [1 / len(start_states)]
    of the initial distribution when it is a non-terminal start state, and 0
    otherwise, whatever [theta] and [max_iterations] are. *)
Theorem zero_discount_occupancy theta max_iterations occ out s :
  compute_occupancy_measure M policy 0%Qc theta max_iterations = Ok (occ, out) →
  0 < max_iterations →
  s ∈ states M →
  get_value occ s
  = if decide (s ∈ start_states M)
    then (if is_terminal_state M s then 0%Qc else initial_prob)
    else 0%Qc.
Proof.
  intros Hrun Hiter Hs.
  destruct (decide (start_states M = [])) as [Hnone | Hsome].
  - unfold compute_occupancy_measure in Hrun. rewrite Hnone in Hrun.
    cbv beta iota zeta in Hrun. injection Hrun as <- _.
    rewrite init_values_zero by done.
    rewrite Hnone, decide_False; [done|]. apply not_elem_of_nil.
  - apply compute_occupancy_measure_returned in Hrun as (occ' & Hloop & ->); [|done].
    destruct max_iterations as [|n]; [lia|]. cbn [occ_loop] in Hloop.
    destruct (occ_iteration M policy 0%Qc (initial_distribution M) (init_values M))
      as [[[occ1 mc] next]|e] eqn:Hfirst; [|done].
    change (Ok (occ1, mc, next) ≫= _)
      with (if n_ltb mc theta then Ok (occ1, [OccConverged (0 + 1)])
            else occ_loop M policy 0%Qc theta (S n) n 1 next occ1) in Hloop.
    assert (Hocc' : occ' = occ1).
    { destruct (n_ltb mc theta); [by injection Hloop as <- _|].
      apply (occ_loop_idle _ _ _ _ _ _ _ _ _
               (occ_iteration_zero_discount_next _ _ _ _ _ Hfirst) Hloop). }
    subst occ'.
    pose proof (occ_pass_adds_once 0%Qc initial_prob _ _ _ _ _ _ _ s
                  initial_distribution_NoDup initial_distribution_values
                  (initial_prob_positive M Hsome) Hfirst) as Hocc1.
    rewrite init_values_zero in Hocc1 by done.
    destruct (is_terminal_state M s) eqn:Hterm.
    + rewrite occ_cleanup_terminal by done. by destruct (decide (s ∈ start_states M)).
    + rewrite occ_cleanup_other by done. rewrite Hocc1.
      destruct (decide (s ∈ (initial_distribution M).*1)) as [Hin | Hnotin].
      * apply initial_distribution_keys in Hin. rewrite decide_True by done.
        apply Qcplus_0_l.
      * rewrite decide_False; [done|]. by rewrite <- initial_distribution_keys.
Qed.

End ZeroDiscountOccupancy.

(** ** The further properties on the concrete models *)

Section MoreScenarios.

#[local] Existing Instance zero_unset.

Lemma value_is_row_maximum_witness :
  "S" ∈ states Fork.mdp
  ∧ get_value (optimal_value_iteration Fork.mdp Fork.gamma Fork.theta 50).1.1 "S"
    = py_max_list
        (map (get_q_value (optimal_value_iteration Fork.mdp Fork.gamma Fork.theta 50).1.2
                          "S")
             (seq 0 (num_actions Fork.mdp))).
Proof.
  assert (Hin : "S" ∈ states Fork.mdp) by left.
  split; [exact Hin|].
  exact (value_is_row_maximum Fork.mdp Fork.gamma Fork.theta 50 "S" Hin).
Defined.

Lemma terminal_distributions_are_not_read_witness :
  let M' := with_distribution Chain.mdp "B" (λ _, [("A", 1%float)]) in
  is_terminal_state Chain.mdp "B" = true
  ∧ policy_evaluation M' Chain.policy Chain.gamma Chain.theta Chain.max_iterations
    = policy_evaluation Chain.mdp Chain.policy Chain.gamma Chain.theta
                        Chain.max_iterations
  ∧ optimal_value_iteration M' Chain.gamma Chain.theta Chain.max_iterations
    = optimal_value_iteration Chain.mdp Chain.gamma Chain.theta Chain.max_iterations
  ∧ compute_occupancy_measure M' Chain.policy Chain.gamma Chain.theta
                              Chain.max_iterations
    = compute_occupancy_measure Chain.mdp Chain.policy Chain.gamma Chain.theta
                                Chain.max_iterations.
Proof.
  split; [reflexivity|].
  exact (terminal_distributions_are_not_read Chain.mdp Chain.policy Chain.gamma
           Chain.theta Chain.max_iterations "B" (λ _, [("A", 1%float)]) eq_refl).
Defined.

Lemma q_learning_keeps_terminal_rows_witness :
  ∃ Q V out,
    q_learning Pick.seeded_rng Pick.rng_random Pick.rng_integers
               (first_best_action 2) Pick.mdp Pick.sampling
               0.1%float 0.9%float 0.1%float 20 1000 (Some 7%Z) 0
    = Ok (Q, V, out)
    ∧ "L" ∈ states Pick.mdp
    ∧ is_terminal_state Pick.mdp "L" = true
    ∧ 1 < num_actions Pick.mdp
    ∧ get_q_value Q "L" 1 = 0%float.
Proof.
  assert (Hin : "L" ∈ states Pick.mdp) by (right; left).
  assert (Hact : 1 < num_actions Pick.mdp) by (simpl; lia).
  destruct (q_learning Pick.seeded_rng Pick.rng_random Pick.rng_integers
              (first_best_action 2) Pick.mdp Pick.sampling
              0.1%float 0.9%float 0.1%float 20 1000 (Some 7%Z) 0)
    as [[[Q V] out]|e] eqn:Hrun; [|vm_compute in Hrun; discriminate Hrun].
  exists Q, V, out. split; [reflexivity|].
  split; [exact Hin|]. split; [reflexivity|]. split; [exact Hact|].
  exact (q_learning_keeps_terminal_rows Pick.seeded_rng Pick.rng_random
           Pick.rng_integers (first_best_action 2) Pick.mdp Pick.sampling
           0.1%float 0.9%float 0.1%float 20 1000 (Some 7%Z) 0 Q V out "L" 1
           Hrun Hin eq_refl Hact).
Defined.

Lemma q_learning_values_follow_q_table_witness :
  ∃ Q V out,
    q_learning Pick.seeded_rng Pick.rng_random Pick.rng_integers
               (first_best_action 2) Pick.mdp Pick.sampling
               0.1%float 0.9%float 0.1%float 20 1000 (Some 7%Z) 0
    = Ok (Q, V, out)
    ∧ "S" ∈ states Pick.mdp
    ∧ get_value V "S"
      = if is_terminal_state Pick.mdp "S" then 0%float
        else (first_best_action 2 Q "S").2.
Proof.
  assert (Hin : "S" ∈ states Pick.mdp) by left.
  destruct (q_learning Pick.seeded_rng Pick.rng_random Pick.rng_integers
              (first_best_action 2) Pick.mdp Pick.sampling
              0.1%float 0.9%float 0.1%float 20 1000 (Some 7%Z) 0)
    as [[[Q V] out]|e] eqn:Hrun; [|vm_compute in Hrun; discriminate Hrun].
  exists Q, V, out. split; [reflexivity|]. split; [exact Hin|].
  exact (q_learning_values_follow_q_table Pick.seeded_rng Pick.rng_random
           Pick.rng_integers (first_best_action 2) Pick.mdp Pick.sampling
           0.1%float 0.9%float 0.1%float 20 1000 (Some 7%Z) 0 Q V out "S"
           Hrun Hin).
Defined.

Lemma q_learning_progress_lines_witness :
  ∃ Q V out,
    q_learning Pick.seeded_rng Pick.rng_random Pick.rng_integers
               (first_best_action 2) Pick.mdp Pick.sampling
               0.1%float 0.9%float 0.1%float 25 50 (Some 7%Z) 0
    = Ok (Q, V, out)
    ∧ out = map (λ k, QLProgress k 25)
                (List.filter (λ k, k mod (25 / 10) =? 0) (seq 1 25)).
Proof.
  destruct (q_learning Pick.seeded_rng Pick.rng_random Pick.rng_integers
              (first_best_action 2) Pick.mdp Pick.sampling
              0.1%float 0.9%float 0.1%float 25 50 (Some 7%Z) 0)
    as [[[Q V] out]|e] eqn:Hrun; [|vm_compute in Hrun; discriminate Hrun].
  exists Q, V, out. split; [reflexivity|].
  exact (q_learning_progress_lines Pick.seeded_rng Pick.rng_random
           Pick.rng_integers (first_best_action 2) Pick.mdp Pick.sampling
           0.1%float 0.9%float 0.1%float 25 50 (Some 7%Z) 0 Q V out Hrun).
Defined.

Lemma q_learning_without_steps_witness :
  ∃ Q V out,
    q_learning Pick.seeded_rng Pick.rng_random Pick.rng_integers
               (first_best_action 2) Pick.mdp Pick.sampling
               0.1%float 0.9%float 0.1%float 10 0 (Some 7%Z) 0
    = Ok (Q, V, out)
    ∧ Q = (init_tables Pick.mdp).2.
Proof.
  destruct (q_learning Pick.seeded_rng Pick.rng_random Pick.rng_integers
              (first_best_action 2) Pick.mdp Pick.sampling
              0.1%float 0.9%float 0.1%float 10 0 (Some 7%Z) 0)
    as [[[Q V] out]|e] eqn:Hrun; [|vm_compute in Hrun; discriminate Hrun].
  exists Q, V, out. split; [reflexivity|].
  exact (q_learning_without_steps Pick.seeded_rng Pick.rng_random
           Pick.rng_integers (first_best_action 2) Pick.mdp Pick.sampling
           0.1%float 0.9%float 0.1%float 10 0 (Some 7%Z) 0 Q V out
           (or_introl eq_refl) Hrun).
Defined.

Lemma unknown_next_state_raises_witness :
  0 < 50
  ∧ "A" ∈ start_states Leak.mdp
  ∧ is_terminal_state Leak.mdp "A" = false
  ∧ n_leb (n_div n_one (n_of_nat (length (start_states Leak.mdp)))) (n_zero : Qc) = false
  ∧ (0, 1%Qc) ∈ get_action_probabilities Leak.policy "A"
  ∧ n_leb 1%Qc n_zero = false
  ∧ ("Z", 1%Qc) ∈ resolve_transitions Leak.mdp "A" 0
  ∧ is_terminal_state Leak.mdp "Z" = false
  ∧ ("Z" ∉ states Leak.mdp)
  ∧ compute_occupancy_measure Leak.mdp Leak.policy Fork.gamma Fork.theta 50
    = Raise KeyError.
Proof.
  assert (Hiter : 0 < 50) by lia.
  assert (Hstart : "A" ∈ start_states Leak.mdp) by left.
  assert (Haction : (0, 1%Qc) ∈ get_action_probabilities Leak.policy "A") by left.
  assert (Hnext : ("Z", 1%Qc) ∈ resolve_transitions Leak.mdp "A" 0) by left.
  assert (Hunknown : "Z" ∉ states Leak.mdp).
  { intros Hin. apply list_elem_of_In in Hin. simpl in Hin.
    destruct Hin as [Heq | []]. discriminate Heq. }
  do 9 (split; [first [assumption | reflexivity]|]).
  exact (unknown_next_state_raises Leak.mdp Leak.policy Fork.gamma Fork.theta 50
           "A" 0 1%Qc "Z" 1%Qc Hiter Hstart eq_refl eq_refl Haction eq_refl
           Hnext eq_refl Hunknown).
Defined.

Lemma nonpositive_theta_runs_every_sweep_witness :
  (0 <= 0)%Qc
  ∧ policy_evaluation Fork.mdp Fork.policy Fork.gamma 0%Qc 5
    = (Nat.iter 5 (λ V, (pe_sweep Fork.mdp Fork.policy Fork.gamma V).1)
                (init_values Fork.mdp),
       [PEMaxIterations 5])
  ∧ optimal_value_iteration Fork.mdp Fork.gamma 0%Qc 5
    = (Nat.iter 5 (λ VQ, (ovi_sweep Fork.mdp Fork.gamma VQ.1 VQ.2).1)
                (init_tables Fork.mdp),
       [OVIMaxIterations 5]).
Proof.
  assert (Htheta : (0 <= 0)%Qc) by apply Qcle_refl.
  split; [exact Htheta|].
  exact (nonpositive_theta_runs_every_sweep Fork.mdp Fork.policy Fork.gamma 0%Qc 5
           Htheta).
Defined.

Lemma zero_discount_policy_value_witness :
  0 < 50 ∧ "S" ∈ states Fork.mdp ∧ is_terminal_state Fork.mdp "S" = false
  ∧ get_value (policy_evaluation Fork.mdp Fork.policy 0%Qc Fork.theta 50).1 "S"
    = policy_reward Fork.mdp Fork.policy "S".
Proof.
  assert (Hiter : 0 < 50) by lia.
  assert (Hin : "S" ∈ states Fork.mdp) by left.
  split; [exact Hiter|]. split; [exact Hin|]. split; [reflexivity|].
  exact (zero_discount_policy_value Fork.mdp Fork.policy Fork.theta 50 "S"
           Hiter Hin eq_refl).
Defined.

Lemma single_action_evaluation_is_optimal_witness :
  num_actions Solo.mdp = 1
  ∧ (∀ s, get_action_probabilities Solo.policy s = [(0, 1%Qc)])
  ∧ (policy_evaluation Solo.mdp Solo.policy Fork.gamma Fork.theta 50).1
    = (optimal_value_iteration Solo.mdp Fork.gamma Fork.theta 50).1.1.
Proof.
  assert (Hpolicy : ∀ s, get_action_probabilities Solo.policy s = [(0, 1%Qc)])
    by (intros s; reflexivity).
  split; [reflexivity|]. split; [exact Hpolicy|].
  exact (proj1 (single_action_evaluation_is_optimal Solo.mdp Solo.policy Fork.gamma
                  Fork.theta 50 eq_refl Hpolicy)).
Defined.

Lemma occupancy_is_nonnegative_witness :
  ∃ occ out,
    compute_occupancy_measure Fork.mdp Fork.policy Fork.gamma Fork.theta 50
    = Ok (occ, out)
    ∧ "S" ∈ states Fork.mdp
    ∧ (0 <= get_value occ "S")%Qc.
Proof.
  assert (Hin : "S" ∈ states Fork.mdp) by left.
  destruct (compute_occupancy_measure Fork.mdp Fork.policy Fork.gamma Fork.theta 50)
    as [[occ out]|e] eqn:Hrun; [|vm_compute in Hrun; discriminate Hrun].
  exists occ, out. split; [reflexivity|]. split; [exact Hin|].
  exact (occupancy_is_nonnegative Fork.mdp Fork.policy Fork.gamma Fork.theta 50
           occ out "S" Hrun Hin).
Defined.

Lemma start_state_occupancy_lower_bound_witness :
  ∃ occ out,
    compute_occupancy_measure Fork.mdp Fork.policy Fork.gamma Fork.theta 50
    = Ok (occ, out)
    ∧ 0 < 50
    ∧ "S" ∈ start_states Fork.mdp
    ∧ "S" ∈ states Fork.mdp
    ∧ is_terminal_state Fork.mdp "S" = false
    ∧ (n_div n_one (n_of_nat (length (start_states Fork.mdp))) <= get_value occ "S")%Qc.
Proof.
  assert (Hiter : 0 < 50) by lia.
  assert (Hstart : "S" ∈ start_states Fork.mdp) by left.
  assert (Hin : "S" ∈ states Fork.mdp) by left.
  destruct (compute_occupancy_measure Fork.mdp Fork.policy Fork.gamma Fork.theta 50)
    as [[occ out]|e] eqn:Hrun; [|vm_compute in Hrun; discriminate Hrun].
  exists occ, out. split; [reflexivity|]. split; [exact Hiter|].
  split; [exact Hstart|]. split; [exact Hin|]. split; [reflexivity|].
  exact (start_state_occupancy_lower_bound Fork.mdp Fork.policy Fork.gamma Fork.theta 50
           occ out "S" Hrun Hiter Hstart Hin eq_refl).
Defined.

Lemma zero_discount_occupancy_witness :
  ∃ occ out,
    compute_occupancy_measure Fork.mdp Fork.policy 0%Qc Fork.theta 50 = Ok (occ, out)
    ∧ 0 < 50
    ∧ "S" ∈ states Fork.mdp
    ∧ get_value occ "S"
      = if decide ("S" ∈ start_states Fork.mdp)
        then (if is_terminal_state Fork.mdp "S" then 0%Qc
              else n_div n_one (n_of_nat (length (start_states Fork.mdp))))
        else 0%Qc.
Proof.
  assert (Hiter : 0 < 50) by lia.
  assert (Hin : "S" ∈ states Fork.mdp) by left.
  destruct (compute_occupancy_measure Fork.mdp Fork.policy 0%Qc Fork.theta 50)
    as [[occ out]|e] eqn:Hrun; [|vm_compute in Hrun; discriminate Hrun].
  exists occ, out. split; [reflexivity|]. split; [exact Hiter|]. split; [exact Hin|].
  exact (zero_discount_occupancy Fork.mdp Fork.policy Fork.theta 50 occ out "S"
           Hrun Hiter Hin).
Defined.

(** The chain is closed: [B] is among its states, and a pair without
    distribution loops on its own state. *)
Lemma chain_is_closed : closed_model Chain.mdp.
Proof.
  split.
  - intros s Hs. apply list_elem_of_singleton in Hs as ->. by left.
  - intros s a next_state prob Hs Hnext.
    unfold resolve_transitions in Hnext. simpl in Hnext.
    destruct (String.eqb s "A" && Nat.eqb a 0).
    + apply list_elem_of_singleton in Hnext as [= -> _]. right. by left.
    + apply list_elem_of_singleton in Hnext as [= -> _]. done.
Defined.

Lemma compute_occupancy_measure_returns_witness :
  closed_model Chain.mdp
  ∧ ∃ occ out,
      compute_occupancy_measure Chain.mdp Chain.policy Chain.gamma Chain.theta
                                Chain.max_iterations = Ok (occ, out).
Proof.
  split; [exact chain_is_closed|].
  exact (compute_occupancy_measure_returns Chain.mdp Chain.policy Chain.gamma
           Chain.theta Chain.max_iterations chain_is_closed).
Defined.

End MoreScenarios.

(** ** Two runs of q_learning *)

Section RunsAgree.

Context {state : Type} `{Countable state}.
Context {num : Type} `{Num num} `{TableDefaults num}.
Context {rng : Type}.
Context (C : Collaborators state num rng) (M : MDPNetwork state num).
Context (alpha gamma epsilon : num).
Implicit Types (Q : gmap (state * nat) num) (V : gmap state num) (g : rng).
Implicit Types (s : state) (a : nat) (l : list state).

Lemma chooses_agree Q s u g a1 g1 a2 g2 :
  Deterministic C →
  chooses C M epsilon Q s u g a1 g1 →
  chooses C M epsilon Q s u g a2 g2 →
  a1 = a2 ∧ g1 = g2.
Proof.
  intros HC [a1' g1' Hu1 Hint1 | a1' q1 Hu1 Hbest1] [a2' g2' Hu2 Hint2 | a2' q2 Hu2 Hbest2];
    try congruence.
  - by eapply integers_gives_one.
  - destruct (best_action_gives_one C HC _ _ _ _ _ _ Hbest1 Hbest2) as [-> _]. done.
Qed.

Lemma targets_agree Q s t1 t2 :
  Deterministic C →
  targets C M gamma Q s t1 → targets C M gamma Q s t2 → t1 = t2.
Proof.
  intros HC [Hs1 | a1 q1 Hs1 Hbest1] [Hs2 | a2 q2 Hs2 Hbest2]; try congruence.
  destruct (best_action_gives_one C HC _ _ _ _ _ _ Hbest1 Hbest2) as [_ ->]. done.
Qed.

(** An episode is settled by the state, the generator and the table it
    starts from. *)
Lemma steps_run_agree steps s g Q g1 Q1 g2 Q2 :
  Deterministic C →
  steps_run C M alpha gamma epsilon steps s g Q g1 Q1 →
  steps_run C M alpha gamma epsilon steps s g Q g2 Q2 →
  g1 = g2 ∧ Q1 = Q2.
Proof.
  intros HC Hrun1. revert g2 Q2.
  induction Hrun1 as [s g Q | steps s g Q Hterm
                     | steps s g Q u ga a gb s' gc t g' Q' Hterm Hu Ha Hs' Ht Hrest IH];
    intros g2 Q2 Hrun2; inversion Hrun2; subst; try done; try congruence.
  match goal with
  | Hu2 : random_gives C g _ _ |- _ =>
      destruct (random_gives_one C HC _ _ _ _ _ Hu Hu2) as [<- <-]
  end.
  match goal with
  | Ha2 : chooses C M epsilon Q s u ga _ _ |- _ =>
      destruct (chooses_agree _ _ _ _ _ _ _ _ HC Ha Ha2) as [<- <-]
  end.
  match goal with
  | Hs2 : next_state_gives C s a gb _ _ |- _ =>
      destruct (next_state_gives_one C HC _ _ _ _ _ _ _ Hs' Hs2) as [<- <-]
  end.
  match goal with
  | Ht2 : targets C M gamma Q s' _ |- _ =>
      destruct (targets_agree _ _ _ _ HC Ht Ht2)
  end.
  by apply IH.
Qed.

Lemma episodes_run_agree num_episodes max_steps remaining episode g Q out
    Q1 out1 Q2 out2 :
  Deterministic C →
  episodes_run C M alpha gamma epsilon num_episodes max_steps remaining episode
               g Q out Q1 out1 →
  episodes_run C M alpha gamma epsilon num_episodes max_steps remaining episode
               g Q out Q2 out2 →
  Q1 = Q2 ∧ out1 = out2.
Proof.
  intros HC Hrun1. revert Q2 out2.
  induction Hrun1 as [episode g Q out
                     | remaining episode g Q out s0 ga gb Qa printed Q' out'
                         Hstart Hsteps Hprinted Hrest IH];
    intros Q2 out2 Hrun2; inversion Hrun2; subst; [done|].
  match goal with
  | Hstart2 : start_state_gives C g _ _ |- _ =>
      destruct (start_state_gives_one C HC _ _ _ _ _ Hstart Hstart2) as [<- <-]
  end.
  match goal with
  | Hsteps2 : steps_run C M alpha gamma epsilon max_steps s0 ga Q _ _ |- _ =>
      destruct (steps_run_agree _ _ _ _ _ _ _ _ HC Hsteps Hsteps2) as [<- <-]
  end.
  match goal with
  | Hprinted2 : ql_progress num_episodes episode = Ok _ |- _ =>
      rewrite Hprinted in Hprinted2; injection Hprinted2 as <-
  end.
  by apply IH.
Qed.

(** The entries the initial loop leaves, whatever the order. *)
Lemma zero_q_row_lookup Q s s' a :
  zero_q_row M Q s' !! (s, a)
  = if decide (s = s' ∧ a < num_actions M) then Some n_zero else Q !! (s, a).
Proof.
  unfold zero_q_row.
  enough (Hgen : ∀ (l : list nat) Q,
    fold_left (λ Q a, set_q_value Q s' a n_zero) l Q !! (s, a)
    = if decide (s = s' ∧ a ∈ l) then Some n_zero else Q !! (s, a)).
  { rewrite Hgen. destruct (decide (s = s' ∧ a ∈ seq 0 (num_actions M))) as [[? Hin]|Hn],
      (decide (s = s' ∧ a < num_actions M)) as [[? Hlt]|Hn']; try done.
    - apply elem_of_seq in Hin. destruct Hn'. split; [done | lia].
    - destruct Hn. split; [done|]. apply elem_of_seq. lia. }
  induction l as [|a' l IH]; intros Q'; simpl.
  - rewrite decide_False; [done|]. intros [_ Hin]. by apply elem_of_nil in Hin.
  - rewrite IH. unfold set_q_value.
    destruct (decide (s = s' ∧ a ∈ l)) as [[-> Hin]|Hn].
    + rewrite decide_True; [done|]. split; [done | by right].
    + destruct (decide ((s', a') = (s, a))) as [[= -> ->]|Hne].
      * rewrite lookup_insert_eq. rewrite decide_True; [done|]. split; [done | by left].
      * rewrite lookup_insert_ne by done.
        rewrite decide_False; [done|]. intros [-> Hin].
        apply elem_of_cons in Hin as [-> | Hin]; [done|]. by destruct Hn.
Qed.

Lemma init_tables_over_lookup l s a :
  (init_tables_over M l).1 !! s = (if decide (s ∈ l) then Some n_zero else None)
  ∧ (init_tables_over M l).2 !! (s, a)
    = (if decide (s ∈ l ∧ a < num_actions M) then Some n_zero else None).
Proof.
  unfold init_tables_over.
  enough (Hgen : ∀ l V Q,
    (fold_left (λ '(V, Q) s, (set_value V s n_zero, zero_q_row M Q s)) l (V, Q)).1 !! s
    = (if decide (s ∈ l) then Some n_zero else V !! s)
    ∧ (fold_left (λ '(V, Q) s, (set_value V s n_zero, zero_q_row M Q s)) l (V, Q)).2
      !! (s, a)
      = (if decide (s ∈ l ∧ a < num_actions M) then Some n_zero else Q !! (s, a))).
  { destruct (Hgen l ∅ ∅) as [HV HQ]. by rewrite HV, HQ, !lookup_empty. }
  clear l. induction l as [|s' l IH]; intros V Q; cbn [fold_left fst snd].
  - split.
    + rewrite decide_False; [done|]. apply not_elem_of_nil.
    + rewrite decide_False; [done|]. intros [Hin _]. by apply elem_of_nil in Hin.
  - destruct (IH (set_value V s' n_zero) (zero_q_row M Q s')) as [HV HQ].
    rewrite HV, HQ. clear HV HQ. split.
    + destruct (decide (s ∈ l)) as [Hin | Hnotin].
      * rewrite decide_True; [done | by right].
      * unfold set_value. destruct (decide (s' = s)) as [->|Hne].
        -- rewrite lookup_insert_eq. rewrite decide_True; [done | by left].
        -- rewrite lookup_insert_ne by done. rewrite decide_False; [done|].
           intros Hin. apply elem_of_cons in Hin as [-> | Hin]; done.
    + rewrite zero_q_row_lookup.
      destruct (decide (s ∈ l ∧ a < num_actions M)) as [[Hin Ha] | Hn].
      * rewrite decide_True; [done|]. split; [by right | done].
      * destruct (decide (s = s' ∧ a < num_actions M)) as [[-> Ha] | Hn'].
        -- rewrite decide_True; [done|]. split; [by left | done].
        -- rewrite decide_False; [done|]. intros [Hin Ha].
           apply elem_of_cons in Hin as [-> | Hin]; [by destruct Hn' | by destruct Hn].
Qed.

(** The initial tables do not depend on the order of the enumeration. *)
Lemma init_tables_over_permutation l l' :
  l ≡ₚ l' → init_tables_over M l = init_tables_over M l'.
Proof.
  intros Hperm.
  rewrite (surjective_pairing (init_tables_over M l)),
          (surjective_pairing (init_tables_over M l')).
  f_equal; apply map_eq.
  - intros s. rewrite (proj1 (init_tables_over_lookup l s 0)),
                      (proj1 (init_tables_over_lookup l' s 0)).
    destruct (decide (s ∈ l)) as [Hin | Hnotin], (decide (s ∈ l')) as [Hin' | Hnotin'];
      try done.
    + destruct Hnotin'. by rewrite <- Hperm.
    + destruct Hnotin. by rewrite Hperm.
  - intros [s a]. rewrite (proj2 (init_tables_over_lookup l s a)),
                          (proj2 (init_tables_over_lookup l' s a)).
    destruct (decide (s ∈ l ∧ a < num_actions M)) as [[Hin Ha] | Hn],
             (decide (s ∈ l' ∧ a < num_actions M)) as [[Hin' Ha'] | Hn']; try done.
    + destruct Hn'. split; [by rewrite <- Hperm | done].
    + destruct Hn. split; [by rewrite Hperm | done].
Qed.

(** The entries the final loop leaves. *)
Lemma extracts_lookup Q l V V' s :
  extracts C M Q l V V' →
  (s ∉ l → V' !! s = V !! s)
  ∧ (s ∈ l → is_terminal_state M s = true → V' !! s = Some n_zero)
  ∧ (s ∈ l → is_terminal_state M s = false →
     ∃ a q, best_action_gives C Q s a q ∧ V' !! s = Some q).
Proof.
  induction 1 as [V | s0 l V V' Hterm Hrest IH | s0 l V V' a0 q0 Hterm Hbest Hrest IH].
  - split; [done|]. split; intros Hin; by apply elem_of_nil in Hin.
  - destruct IH as (Hout & Hin_term & Hin_best).
    destruct (decide (s ∈ l)) as [Hin | Hnotin].
    + split; [|split].
      * intros Hn. destruct Hn. by right.
      * intros _. by apply Hin_term.
      * intros _. by apply Hin_best.
    + rewrite (Hout Hnotin). unfold set_value.
      destruct (decide (s0 = s)) as [->|Hne].
      * rewrite lookup_insert_eq. split; [|split].
        -- intros Hn. destruct Hn. by left.
        -- done.
        -- congruence.
      * rewrite lookup_insert_ne by done. split; [done|].
        split; intros Hin; apply elem_of_cons in Hin as [-> | Hin]; done.
  - destruct IH as (Hout & Hin_term & Hin_best).
    destruct (decide (s ∈ l)) as [Hin | Hnotin].
    + split; [|split].
      * intros Hn. destruct Hn. by right.
      * intros _. by apply Hin_term.
      * intros _. by apply Hin_best.
    + rewrite (Hout Hnotin). unfold set_value.
      destruct (decide (s0 = s)) as [->|Hne].
      * rewrite lookup_insert_eq. split; [|split].
        -- intros Hn. destruct Hn. by left.
        -- congruence.
        -- eauto.
      * rewrite lookup_insert_ne by done. split; [done|].
        split; intros Hin; apply elem_of_cons in Hin as [-> | Hin]; done.
Qed.

(** The value table does not depend on the order of the enumeration. *)
Lemma extracts_agree Q l l' V V1 V2 :
  Deterministic C →
  l ≡ₚ l' →
  extracts C M Q l V V1 → extracts C M Q l' V V2 → V1 = V2.
Proof.
  intros HC Hperm Hrun1 Hrun2. apply map_eq. intros s.
  destruct (extracts_lookup Q l V V1 s Hrun1) as (Hout1 & Hterm1 & Hbest1).
  destruct (extracts_lookup Q l' V V2 s Hrun2) as (Hout2 & Hterm2 & Hbest2).
  destruct (decide (s ∈ l)) as [Hin | Hnotin].
  - assert (Hin' : s ∈ l') by (by rewrite <- Hperm).
    destruct (is_terminal_state M s) eqn:Hterm.
    + by rewrite Hterm1, Hterm2.
    + destruct (Hbest1 Hin eq_refl) as (a1 & q1 & Hb1 & ->).
      destruct (Hbest2 Hin' eq_refl) as (a2 & q2 & Hb2 & ->).
      destruct (best_action_gives_one C HC _ _ _ _ _ _ Hb1 Hb2) as [_ ->]. done.
  - assert (Hnotin' : s ∉ l') by (by rewrite <- Hperm).
    by rewrite Hout1, Hout2.
Qed.

End RunsAgree.

(** C4. Two runs of [q_learning] on the same model, with the same
    parameters and the same seed, a seed that is not [None], that return,
    return the same Q-table, the same derived value table and the same
    printed lines.  The runs may meet the states in different orders; what
    they share is that each call outside [solvers.py] has one answer, given
    its arguments and the state of the generator.  Without a seed the two
    generators start anywhere, and the runs may differ. *)
Theorem same_seed_runs_agree {state : Type} `{Countable state}
    {num : Type} `{Num num} `{TableDefaults num} {rng : Type}
    (C : Collaborators state num rng) (M : MDPNetwork state num)
    (alpha gamma epsilon : num) (num_episodes max_steps_per_episode : nat)
    (seed : option Z)
    (result1 result2 : gmap (state * nat) num * gmap state num * list Diag) :
  Deterministic C →
  seed ≠ None →
  returns C M alpha gamma epsilon num_episodes max_steps_per_episode seed result1 →
  returns C M alpha gamma epsilon num_episodes max_steps_per_episode seed result2 →
  result1 = result2.
Proof.
  intros HC Hseed (g1 & first1 & last1 & Q1 & out1 & V1 & Hg1 & Hfirst1 & Hlast1
                   & Hepisodes1 & Hextract1 & ->)
                  (g2 & first2 & last2 & Q2 & out2 & V2 & Hg2 & Hfirst2 & Hlast2
                   & Hepisodes2 & Hextract2 & ->).
  destruct seed as [z|]; [|done].
  pose proof (seeds_to_one C HC z g1 g2 Hg1 Hg2) as <-.
  assert (Hinit : init_tables_over M first1 = init_tables_over M first2).
  { apply init_tables_over_permutation. by rewrite Hfirst1, Hfirst2. }
  rewrite <- Hinit in Hepisodes2, Hextract2.
  destruct (episodes_run_agree C M alpha gamma epsilon _ _ _ _ _ _ _ _ _ _ _
              HC Hepisodes1 Hepisodes2) as [<- <-].
  assert (Hlast : last1 ≡ₚ last2) by (by rewrite Hlast1, Hlast2).
  by rewrite (extracts_agree C M Q1 last1 last2 _ V1 V2 HC Hlast Hextract1 Hextract2).
Qed.

(** ** The run the functions describe *)

Section FunctionRuns.

Context {state : Type} `{Countable state}.
Context {num : Type} `{Num num} `{TableDefaults num}.
Context {rng : Type} (seeded_rng : Z → rng).
Context (rng_random : rng → num * rng) (rng_integers : nat → nat → rng → nat * rng).
Context (get_best_action : gmap (state * nat) num → state → nat * num).
Context (M : MDPNetwork state num) (smp : Sampling state rng).
Context (alpha gamma epsilon : num).
Implicit Types (Q : gmap (state * nat) num) (V : gmap state num) (g : rng).
Implicit Types (s : state) (a : nat).

#[local] Abbreviation given :=
  (as_relations seeded_rng rng_random rng_integers smp get_best_action).

(** Functions answer in one way. *)
Lemma as_relations_deterministic : Deterministic given.
Proof.
  split; simpl; intros; split_and?; congruence.
Qed.

Lemma ql_steps_runs steps s g Q :
  steps_run given M alpha gamma epsilon steps s g Q
    (ql_steps rng_random rng_integers get_best_action M smp alpha gamma epsilon
              steps s g Q).1
    (ql_steps rng_random rng_integers get_best_action M smp alpha gamma epsilon
              steps s g Q).2.
Proof.
  revert s g Q. induction steps as [|n IH]; intros s g Q; simpl; [constructor|].
  destruct (is_terminal_state M s) eqn:Hterm; [by constructor|].
  destruct (rng_random g) as [u g1] eqn:Hu.
  destruct (if n_ltb u epsilon then rng_integers 0 (num_actions M) g1
            else ((get_best_action Q s).1, g1)) as [action g2] eqn:Hchoice.
  destruct (sample_next_state smp s action g2) as [next_state g3] eqn:Hnext.
  eapply steps_step with
    (u := u) (g1 := g1) (g2 := g2) (g3 := g3)
    (target_q := if is_terminal_state M next_state then get_state_reward M next_state
                 else n_add (get_state_reward M next_state)
                            (n_mul gamma (get_best_action Q next_state).2));
    [done | done | ..].
  - destruct (n_ltb u epsilon) eqn:Hlt.
    + apply chooses_random; [done | exact Hchoice].
    + injection Hchoice as <- <-.
      apply chooses_best with (q := (get_best_action Q s).2); [done|].
      simpl. apply surjective_pairing.
  - exact Hnext.
  - destruct (is_terminal_state M next_state) eqn:Hnext_term.
    + by apply targets_terminal.
    + apply targets_best with (action := (get_best_action Q next_state).1); [done|].
      simpl. apply surjective_pairing.
  - apply IH.
Qed.

Lemma ql_episodes_runs num_episodes max_steps remaining episode g Q out Q' out' :
  ql_episodes rng_random rng_integers get_best_action M smp alpha gamma epsilon
              num_episodes max_steps remaining episode g Q out = Ok (Q', out') →
  episodes_run given M alpha gamma epsilon num_episodes max_steps remaining episode
               g Q out Q' out'.
Proof.
  revert episode g Q out. induction remaining as [|r IH]; intros episode g Q out; simpl.
  - intros [= <- <-]. constructor.
  - destruct (sample_start_state smp g) as [s0 g0] eqn:Hstart.
    pose proof (ql_steps_runs max_steps s0 g0 Q) as Hsteps.
    destruct (ql_steps rng_random rng_integers get_best_action M smp
                       alpha gamma epsilon max_steps s0 g0 Q) as [g1 Q1].
    destruct (ql_progress num_episodes episode) as [printed|e] eqn:Hprinted;
      simpl; [|done].
    intros Hrest. eapply episodes_step; [exact Hstart | exact Hsteps | exact Hprinted|].
    by apply IH.
Qed.

Lemma ql_extract_runs Q V :
  extracts given M Q (states M) V (ql_extract get_best_action M Q V).
Proof.
  unfold ql_extract. revert V.
  induction (states M) as [|s l IH]; intros V; simpl; [constructor|].
  destruct (is_terminal_state M s) eqn:Hterm.
  - by apply extracts_terminal.
  - apply extracts_best with (action := (get_best_action Q s).1)
                             (best_q_value := (get_best_action Q s).2); [done | |done].
    simpl. apply surjective_pairing.
Qed.

(** What [q_learning] returns is the outcome of a run. *)
Lemma q_learning_is_a_run num_episodes max_steps seed os_entropy result :
  q_learning seeded_rng rng_random rng_integers get_best_action M smp
             alpha gamma epsilon num_episodes max_steps seed os_entropy = Ok result →
  returns given M alpha gamma epsilon num_episodes max_steps seed result.
Proof.
  unfold q_learning, returns.
  change (init_tables M) with (init_tables_over M (states M)).
  destruct (init_tables_over M (states M)) as [V0 Q0] eqn:Hinit.
  destruct (ql_episodes rng_random rng_integers get_best_action M smp
              alpha gamma epsilon num_episodes max_steps num_episodes 0
              (default_rng seeded_rng seed os_entropy) Q0 [])
    as [[Q out]|e] eqn:Hepisodes; simpl; [|done].
  intros [= <-].
  exists (default_rng seeded_rng seed os_entropy), (states M), (states M), Q, out,
         (ql_extract get_best_action M Q V0).
  rewrite Hinit. simpl.
  split; [by destruct seed|]. split; [done|]. split; [done|].
  split; [by apply ql_episodes_runs|]. split; [apply ql_extract_runs | done].
Qed.

End FunctionRuns.

(** ** The runs and the infinite penalty on the concrete models *)

Section Revised.

#[local] Existing Instance zero_unset.


Lemma same_seed_runs_agree_witness :
  let C := as_relations Pick.seeded_rng Pick.rng_random Pick.rng_integers
                        Pick.sampling (first_best_action 2) in
  ∃ result1 result2,
    q_learning Pick.seeded_rng Pick.rng_random Pick.rng_integers
               (first_best_action 2) Pick.mdp Pick.sampling
               0.1%float 0.9%float 0.1%float 10 50 (Some 7%Z) 0 = Ok result1
    ∧ q_learning Pick.seeded_rng Pick.rng_random Pick.rng_integers
                 (first_best_action 2) Pick.mdp Pick.sampling
                 0.1%float 0.9%float 0.1%float 10 50 (Some 7%Z) 1 = Ok result2
    ∧ Deterministic C
    ∧ Some 7%Z ≠ None
    ∧ returns C Pick.mdp 0.1%float 0.9%float 0.1%float 10 50 (Some 7%Z) result1
    ∧ returns C Pick.mdp 0.1%float 0.9%float 0.1%float 10 50 (Some 7%Z) result2
    ∧ result1 = result2.
Proof.
  intros C.
  pose proof (as_relations_deterministic Pick.seeded_rng Pick.rng_random
                Pick.rng_integers (first_best_action 2) Pick.sampling) as HC.
  assert (Hseed : Some 7%Z ≠ None) by discriminate.
  destruct (q_learning Pick.seeded_rng Pick.rng_random Pick.rng_integers
              (first_best_action 2) Pick.mdp Pick.sampling
              0.1%float 0.9%float 0.1%float 10 50 (Some 7%Z) 0)
    as [result1|e] eqn:Hrun1; [|vm_compute in Hrun1; discriminate Hrun1].
  destruct (q_learning Pick.seeded_rng Pick.rng_random Pick.rng_integers
              (first_best_action 2) Pick.mdp Pick.sampling
              0.1%float 0.9%float 0.1%float 10 50 (Some 7%Z) 1)
    as [result2|e] eqn:Hrun2; [|vm_compute in Hrun2; discriminate Hrun2].
  apply q_learning_is_a_run in Hrun1, Hrun2.
  exists result1, result2.
  split; [reflexivity|]. split; [reflexivity|]. split; [exact HC|].
  split; [exact Hseed|]. split; [exact Hrun1|]. split; [exact Hrun2|].
  exact (same_seed_runs_agree C Pick.mdp 0.1%float 0.9%float 0.1%float 10 50
           (Some 7%Z) result1 result2 HC Hseed Hrun1 Hrun2).
Defined.

End Revised.
